(** * Two three.js demos: an animated "sun" sphere and a rotating pyramid

    Shallow embedding of [src/script.js] (the sun demo) and of the second
    script of the repository (the pyramid demo).

    Two kinds of numbers occur in the sources and they are modelled
    differently:

    - JavaScript numbers (uniform values held by the materials, the Euler
      angle [pyramid.rotation.y], window sizes) are IEEE-754 binary64
      values; they are modelled by Rocq's primitive [float], whose
      operations are exactly the binary64 ones.
    - The GLSL shader bodies are modelled over the real numbers [R]: the
      arithmetic of the shading language (whose precision of [sin] is left
      to the implementation) is idealised as exact arithmetic.

    Calls into the rendering library (camera controls, draw call, frame
    scheduling) are recorded as events of a log, in the order in which the
    source issues them. *)

From Stdlib Require Import Reals Lra Lia ZArith List Bool String Floats.
Import ListNotations.

Set Warnings "-inexact-float".

(** ** JavaScript side: numbers, objects used as maps, arrays *)

Module JS.

Local Open Scope float_scope.

(** [Math.min(a, b)] on numbers: NaN if either argument is NaN, and
    [-0] is smaller than [+0]. *)
Definition Math_min (a b : float) : float :=
  if PrimFloat.is_nan a || PrimFloat.is_nan b then nan
  else if a <? b then a
  else if b <? a then b
  else if PrimFloat.is_zero a && PrimFloat.get_sign a then a
  else b.

(** An object literal [{ k1: { value: v1 }, ... }] used as a map from
    uniform names to number slots. *)
Definition Uniforms := list (string * float).

Fixpoint get_value (k : string) (u : Uniforms) : option float :=
  match u with
  | [] => None
  | (k', v) :: rest => if String.eqb k k' then Some v else get_value k rest
  end.

(** Assignment to the [value] slot of an existing uniform. *)
Fixpoint set_value (k : string) (v : float) (u : Uniforms) : Uniforms :=
  match u with
  | [] => []
  | (k', v') :: rest =>
      if String.eqb k k' then (k', v) :: rest
      else (k', v') :: set_value k v rest
  end.

(** [u.k.value = v]: reading [.value] of a missing uniform throws. *)
Definition assign_value (k : string) (v : float) (u : Uniforms) : option Uniforms :=
  match get_value k u with
  | Some _ => Some (set_value k v u)
  | None => None
  end.

(** In-place update of the element of index [i] of an array. *)
Fixpoint set_nth {A} (i : nat) (a : A) (l : list A) : list A :=
  match l, i with
  | [], _ => []
  | _ :: rest, O => a :: rest
  | b :: rest, S j => b :: set_nth j a rest
  end.

(** Statements that may throw (a property read on [undefined]) are
    functions into [option]; [None] stands for the uncaught TypeError. *)
Definition bind {A B} (m : option A) (f : A -> option B) : option B :=
  match m with
  | Some a => f a
  | None => None
  end.

End JS.

Notation "x <- m ;; k" := (JS.bind m (fun x => k))
  (at level 61, m at next level, right associativity).

(** The host window, as read by the scripts. *)
Record Window := mkWindow {
  innerWidth : float;
  innerHeight : float;
  devicePixelRatio : float
}.

(** Calls into the rendering library and the browser, as they are issued. *)
Inductive Effect :=
| ReadElapsedTime
| WriteUniform (material : nat) (name : string)
| RotateMesh
| ControlsUpdate
| Render
| RequestAnimationFrame
| UpdateProjectionMatrix
| SetSize (width height : float)
| SetPixelRatio (ratio : float).

Definition is_controls_update (e : Effect) : bool :=
  match e with ControlsUpdate => true | _ => false end.

Definition is_rotate_mesh (e : Effect) : bool :=
  match e with RotateMesh => true | _ => false end.

Definition is_read_elapsed (e : Effect) : bool :=
  match e with ReadElapsedTime => true | _ => false end.

(** Index of the first effect of a log that satisfies [p]. *)
Fixpoint first_index (p : Effect -> bool) (l : list Effect) : option nat :=
  match l with
  | [] => None
  | e :: rest => if p e then Some O else option_map S (first_index p rest)
  end.

(** Both kinds of effect occur in [l], and the first [p] comes before the
    first [q]. *)
Definition occurs_before (p q : Effect -> bool) (l : list Effect) : bool :=
  match first_index p l, first_index q l with
  | Some i, Some j => Nat.ltb i j
  | _, _ => false
  end.

(** The effects appended to a log between two states. *)
Definition appended (before after : list Effect) : list Effect :=
  skipn (List.length before) after.

Definition is_render (e : Effect) : bool :=
  match e with Render => true | _ => false end.

Definition is_request_frame (e : Effect) : bool :=
  match e with RequestAnimationFrame => true | _ => false end.

(** Number of effects of a log that satisfy [p]. *)
Definition count_effects (p : Effect -> bool) (l : list Effect) : nat :=
  List.length (filter p l).

Record Sizes := mkSizes { width : float; height : float }.

(** What the scripts set on [THREE.PerspectiveCamera] and
    [THREE.WebGLRenderer]. *)
Record Camera := mkCamera { fov : float; aspect : float; near : float; far : float }.

Record Renderer := mkRenderer {
  renderWidth : float;
  renderHeight : float;
  pixelRatio : float
}.

(** The camera and the renderer agree with [sizes]. *)
Definition display_consistent (s : Sizes) (c : Camera) (r : Renderer) : Prop :=
  aspect c = (width s / height s)%float /\
  renderWidth r = width s /\ renderHeight r = height s.

(** The sizes, camera and renderer that startup or a resize leave for the
    window [w]. *)
Definition display_of (w : Window) : Sizes * Camera * Renderer :=
  (mkSizes (innerWidth w) (innerHeight w),
   mkCamera 75 (innerWidth w / innerHeight w)%float 0.1 100,
   mkRenderer (innerWidth w) (innerHeight w) (JS.Math_min (devicePixelRatio w) 2)).

(** ** The shading language, over the reals *)

Module GLSL.

Local Open Scope R_scope.

Record vec2 := mkVec2 { x2 : R; y2 : R }.
Record vec3 := mkVec3 { x3 : R; y3 : R; z3 : R }.
Record vec4 := mkVec4 { x4 : R; y4 : R; z4 : R; w4 : R }.
(** A matrix is kept as its four rows. *)
Record mat4 := mkMat4 { row0 : vec4; row1 : vec4; row2 : vec4; row3 : vec4 }.

Definition sub2 (a b : vec2) : vec2 := mkVec2 (x2 a - x2 b) (y2 a - y2 b).
Definition add3 (a b : vec3) : vec3 :=
  mkVec3 (x3 a + x3 b) (y3 a + y3 b) (z3 a + z3 b).
Definition sub3 (a b : vec3) : vec3 :=
  mkVec3 (x3 a - x3 b) (y3 a - y3 b) (z3 a - z3 b).
(** [v * s] for a vector [v] and a scalar [s]. *)
Definition scale3 (v : vec3) (s : R) : vec3 :=
  mkVec3 (x3 v * s) (y3 v * s) (z3 v * s).

Definition length2 (v : vec2) : R := R_sqrt.sqrt (x2 v * x2 v + y2 v * y2 v).
Definition length3 (v : vec3) : R :=
  R_sqrt.sqrt (x3 v * x3 v + y3 v * y3 v + z3 v * z3 v).

Definition floor (x : R) : R := IZR (Zfloor x).
(** [mod(x, y)] is [x - y * floor(x / y)]. *)
Definition mod_ (x y : R) : R := x - y * floor (x / y).
(** [mix(a, b, t)] is [a * (1 - t) + b * t], componentwise. *)
Definition mix (a b t : R) : R := a * (1 - t) + b * t.
Definition mix3 (a b : vec3) (t : R) : vec3 :=
  mkVec3 (mix (x3 a) (x3 b) t) (mix (y3 a) (y3 b) t) (mix (z3 a) (z3 b) t).

Definition vec3_of (s : R) : vec3 := mkVec3 s s s.
Definition vec4_of (v : vec3) (w : R) : vec4 := mkVec4 (x3 v) (y3 v) (z3 v) w.

Definition dot4 (a b : vec4) : R :=
  x4 a * x4 b + y4 a * y4 b + z4 a * z4 b + w4 a * w4 b.
Definition mat_vec (m : mat4) (v : vec4) : vec4 :=
  mkVec4 (dot4 (row0 m) v) (dot4 (row1 m) v) (dot4 (row2 m) v) (dot4 (row3 m) v).
Definition col (m : mat4) (sel : vec4 -> R) : vec4 :=
  mkVec4 (sel (row0 m)) (sel (row1 m)) (sel (row2 m)) (sel (row3 m)).
Definition mat_row (r : vec4) (m : mat4) : vec4 :=
  mkVec4 (dot4 r (col m x4)) (dot4 r (col m y4)) (dot4 r (col m z4)) (dot4 r (col m w4)).
Definition mat_mul (a b : mat4) : mat4 :=
  mkMat4 (mat_row (row0 a) b) (mat_row (row1 a) b)
         (mat_row (row2 a) b) (mat_row (row3 a) b).

(** Per-vertex inputs and the matrices supplied by the library. *)
Record Attributes := mkAttributes { position : vec3; normal : vec3; uv : vec2 }.
Record Matrices := mkMatrices { projectionMatrix : mat4; modelViewMatrix : mat4 }.

(** What a vertex shader writes. *)
Record VertexOut := mkVertexOut { vUv : vec2; gl_Position : vec4 }.

(** [projectionMatrix * modelViewMatrix * vec4(p, 1.0)], grouped as the
    language does (to the left). *)
Definition project (m : Matrices) (p : vec3) : vec4 :=
  mat_vec (mat_mul (projectionMatrix m) (modelViewMatrix m)) (vec4_of p 1).

End GLSL.

(** ** The sun demo: shaders *)

Module SunShader.

Import GLSL.
Local Open Scope R_scope.

Record Uniforms := mkUniforms {
  uTime : R;
  uWaveSpeed : R;
  uSmallWaveFrequency : R;
  uSmallWaveSpeed : R;
  uWaveHeight : R;
  uColorMultiplier : R;
  uSurfaceColor : vec3;
  uDepthColor : vec3
}.

(** The values given to [THREE.ShaderMaterial] at construction. *)
Definition default_uniforms : Uniforms :=
  mkUniforms 0 1 10 2 0.15 1 (mkVec3 1 0.5 0) (mkVec3 1 0 0).

Definition with_time (u : Uniforms) (t : R) : Uniforms :=
  mkUniforms t (uWaveSpeed u) (uSmallWaveFrequency u) (uSmallWaveSpeed u)
             (uWaveHeight u) (uColorMultiplier u) (uSurfaceColor u) (uDepthColor u).

Definition wave (u : Uniforms) (p : vec3) : R :=
  sin (x3 p * 10 + uTime u * uWaveSpeed u) * 0.05.

Definition smallWave (u : Uniforms) (p : vec3) : R :=
  sin (y3 p * uSmallWaveFrequency u + uTime u * uSmallWaveSpeed u) * 0.03.

(** [displacement = wave + smallWave; displacement *= uWaveHeight]. *)
Definition displacement (u : Uniforms) (p : vec3) : R :=
  (wave u p + smallWave u p) * uWaveHeight u.

Definition newPosition (u : Uniforms) (a : Attributes) : vec3 :=
  add3 (position a) (scale3 (normal a) (displacement u (position a))).

Definition vertexShader (u : Uniforms) (m : Matrices) (a : Attributes) : VertexOut :=
  mkVertexOut (uv a) (project m (newPosition u a)).

Definition fragmentShader (u : Uniforms) (vUv : vec2) : vec4 :=
  let color := mix3 (uSurfaceColor u) (uDepthColor u) (y2 vUv) in
  let color := scale3 color (uColorMultiplier u) in
  vec4_of color 1.

End SunShader.

(** ** The pyramid demo: the four shader pairs *)

Module PyramidShader.

Import GLSL.
Local Open Scope R_scope.

(** Pattern 1: waves. *)
Definition newPosition1 (uTime : R) (p : vec3) : vec3 :=
  let p1 := mkVec3 (x3 p) (y3 p) (z3 p + sin (x3 p * 5 + uTime) * 0.2) in
  mkVec3 (x3 p1) (y3 p1) (z3 p1 + sin (y3 p1 * 5 + uTime) * 0.2).

Definition vertexShader1 (uTime : R) (m : Matrices) (a : Attributes) : VertexOut :=
  mkVertexOut (uv a) (project m (newPosition1 uTime (position a))).

Definition fragmentShader1 (vUv : vec2) : vec4 :=
  vec4_of (mkVec3 (x2 vUv) (y2 vUv) 0.5) 1.

(** Pattern 2: checkerboard. *)
Definition vertexShader2 (m : Matrices) (a : Attributes) : VertexOut :=
  mkVertexOut (uv a) (project m (position a)).

Definition checker (vUv : vec2) : R :=
  mod_ (floor (x2 vUv * 10) + floor (y2 vUv * 10)) 2.

Definition fragmentShader2 (vUv : vec2) : vec4 :=
  let color := mix3 (vec3_of 1) (vec3_of 0) (checker vUv) in
  vec4_of color 1.

(** Pattern 3: radial gradient. *)
Definition vertexShader3 (m : Matrices) (a : Attributes) : VertexOut :=
  mkVertexOut (uv a) (project m (position a)).

Definition dist (vUv : vec2) : R := length2 (sub2 vUv (mkVec2 0.5 0.5)).

Definition fragmentShader3 (vUv : vec2) : vec4 :=
  let color := mkVec3 (1 - dist vUv) (dist vUv) 0 in
  vec4_of color 1.

(** Pattern 4: circular ripple. *)
Definition newPosition4 (uTime : R) (a : Attributes) : vec3 :=
  let p := position a in
  mkVec3 (x3 p) (y3 p) (z3 p + sin (dist (uv a) * 10 - uTime) * 0.2).

Definition vertexShader4 (uTime : R) (m : Matrices) (a : Attributes) : VertexOut :=
  mkVertexOut (uv a) (project m (newPosition4 uTime a)).

Definition fragmentShader4 (vUv : vec2) : vec4 :=
  vec4_of (mkVec3 (0.5 + x2 vUv) (0.5 - y2 vUv) 0.5) 1.

End PyramidShader.

(** ** The sun demo: script *)

Module Sun.

Local Open Scope float_scope.
Local Open Scope string_scope.

Record State := mkState {
  uniforms : JS.Uniforms;
  uSurfaceColor : float * float * float;
  uDepthColor : float * float * float;
  sizes : Sizes;
  camera : Camera;
  renderer : Renderer;
  log : list Effect
}.

(** The scalar uniforms of [material], as constructed. *)
Definition initial_uniforms : JS.Uniforms :=
  [ ("uTime", 0.0); ("uWaveSpeed", 1.0); ("uSmallWaveFrequency", 10.0);
    ("uSmallWaveSpeed", 2.0); ("uWaveHeight", 0.15); ("uColorMultiplier", 1.0) ].

(** State once the module body has run, before the first [tick()]. *)
Definition init (w : Window) : State :=
  let sizes := mkSizes (innerWidth w) (innerHeight w) in
  let ratio := JS.Math_min (devicePixelRatio w) 2 in
  mkState initial_uniforms (1.0, 0.5, 0.0) (1.0, 0.0, 0.0)
          sizes
          (mkCamera 75 (width sizes / height sizes) 0.1 100)
          (mkRenderer (width sizes) (height sizes) ratio)
          [SetSize (width sizes) (height sizes); SetPixelRatio ratio].

(** The listener registered for ['resize']. *)
Definition resize (w : Window) (st : State) : State :=
  let sizes := mkSizes (innerWidth w) (innerHeight w) in
  let camera :=
    mkCamera (fov (camera st)) (width sizes / height sizes)
             (near (camera st)) (far (camera st)) in
  let ratio := JS.Math_min (devicePixelRatio w) 2 in
  mkState (uniforms st) (uSurfaceColor st) (uDepthColor st)
          sizes camera
          (mkRenderer (width sizes) (height sizes) ratio)
          (log st ++ [UpdateProjectionMatrix;
                      SetSize (width sizes) (height sizes);
                      SetPixelRatio ratio]).

Definition emit (e : list Effect) (st : State) : State :=
  mkState (uniforms st) (uSurfaceColor st) (uDepthColor st)
          (sizes st) (camera st) (renderer st) (log st ++ e).

Definition set_uTime (t : float) (st : State) : option State :=
  u <- JS.assign_value "uTime" t (uniforms st) ;;
  Some (mkState u (uSurfaceColor st) (uDepthColor st)
                (sizes st) (camera st) (renderer st)
                (log st ++ [WriteUniform 0 "uTime"])).

(** One frame; [elapsedTime] is what [clock.getElapsedTime()] returns. *)
Definition tick (elapsedTime : float) (st : State) : option State :=
  let st := emit [ReadElapsedTime] st in
  st <- set_uTime elapsedTime st ;;
  let st := emit [ControlsUpdate] st in
  let st := emit [Render] st in
  let st := emit [RequestAnimationFrame] st in
  Some st.

(** What the host delivers to the script. *)
Inductive Event :=
| Resize (w : Window)
| Frame (elapsedTime : float).

Definition step (e : Event) (st : State) : option State :=
  match e with
  | Resize w => Some (resize w st)
  | Frame t => tick t st
  end.

Fixpoint run (es : list Event) (st : State) : option State :=
  match es with
  | [] => Some st
  | e :: rest => st' <- step e st ;; run rest st'
  end.

(** The effects of one frame, in the order of the source. *)
Definition frame_effects : list Effect :=
  [ ReadElapsedTime; WriteUniform 0 "uTime"; ControlsUpdate; Render;
    RequestAnimationFrame ].

(** The elapsed time of the last frame of [es], or [t] if there is none. *)
Fixpoint last_frame_time (es : list Event) (t : float) : float :=
  match es with
  | [] => t
  | Resize _ :: rest => last_frame_time rest t
  | Frame t' :: rest => last_frame_time rest t'
  end.

Definition frames (es : list Event) : nat :=
  List.length (filter (fun e => match e with Frame _ => true | _ => false end) es).

(** The last window of [es], or [w] if no resize occurs. *)
Fixpoint last_window (es : list Event) (w : Window) : Window :=
  match es with
  | [] => w
  | Resize w' :: rest => last_window rest w'
  | Frame _ :: rest => last_window rest w
  end.

(** A numeric control of the debug panel:
    [gui.add(material.uniforms.<target>, 'value', min, max, step).name(label)]. *)
Record Control := mkControl {
  target : string;
  cmin : float;
  cmax : float;
  cstep : float;
  label : string
}.

Definition controls : list Control :=
  [ mkControl "uWaveSpeed" 0.1 5 0.1 "Wave Speed";
    mkControl "uSmallWaveFrequency" 1 30 1 "Small Wave Frequency";
    mkControl "uSmallWaveSpeed" 0.1 5 0.1 "Small Wave Speed";
    mkControl "uWaveHeight" 0.05 0.5 0.01 "Wave Height";
    mkControl "uColorMultiplier" 0.1 5 0.1 "Color Multiplier" ].

(** The uniform a control is bound to exists and its current value lies in
    the declared range. *)
Definition in_range (c : Control) (u : JS.Uniforms) : bool :=
  match JS.get_value (target c) u with
  | Some v => (cmin c <=? v)%float && (v <=? cmax c)%float
  | None => false
  end.

End Sun.

(** ** The pyramid demo: script *)

Module Pyramid.

Local Open Scope float_scope.
Local Open Scope string_scope.

Inductive Pattern := Waves | Checkerboard | RadialGradient | Ripple.

(** A [THREE.ShaderMaterial]: its shader pair and its [uniforms] object
    (empty when the constructor is given none). *)
Record ShaderMaterial := mkMaterial {
  shader : Pattern;
  uniforms : JS.Uniforms
}.

Record Euler := mkEuler { x : float; y : float; z : float }.

Record State := mkState {
  materials : list ShaderMaterial;
  rotation : Euler;
  sizes : Sizes;
  camera : Camera;
  renderer : Renderer;
  log : list Effect
}.

Definition initial_materials : list ShaderMaterial :=
  [ mkMaterial Waves [("uTime", 0.0)];
    mkMaterial Checkerboard [];
    mkMaterial RadialGradient [];
    mkMaterial Ripple [("uTime", 0.0)] ].

(** State once the module body has run, before the first [tick()]. *)
Definition init (w : Window) : State :=
  let sizes := mkSizes (innerWidth w) (innerHeight w) in
  let ratio := JS.Math_min (devicePixelRatio w) 2 in
  mkState initial_materials (mkEuler 0 0 0)
          sizes
          (mkCamera 75 (width sizes / height sizes) 0.1 100)
          (mkRenderer (width sizes) (height sizes) ratio)
          [SetSize (width sizes) (height sizes); SetPixelRatio ratio].

(** The listener registered for ['resize']. *)
Definition resize (w : Window) (st : State) : State :=
  let sizes := mkSizes (innerWidth w) (innerHeight w) in
  let camera :=
    mkCamera (fov (camera st)) (width sizes / height sizes)
             (near (camera st)) (far (camera st)) in
  let ratio := JS.Math_min (devicePixelRatio w) 2 in
  mkState (materials st) (rotation st)
          sizes camera
          (mkRenderer (width sizes) (height sizes) ratio)
          (log st ++ [UpdateProjectionMatrix;
                      SetSize (width sizes) (height sizes);
                      SetPixelRatio ratio]).

Definition emit (e : list Effect) (st : State) : State :=
  mkState (materials st) (rotation st) (sizes st) (camera st) (renderer st)
          (log st ++ e).

(** [materials[i].uniforms.uTime.value += 0.01]. *)
Definition add_uTime (i : nat) (st : State) : option State :=
  m <- nth_error (materials st) i ;;
  t <- JS.get_value "uTime" (uniforms m) ;;
  u <- JS.assign_value "uTime" (t + 0.01) (uniforms m) ;;
  Some (mkState (JS.set_nth i (mkMaterial (shader m) u) (materials st))
                (rotation st) (sizes st) (camera st) (renderer st)
                (log st ++ [WriteUniform i "uTime"])).

(** [pyramid.rotation.y += 0.01]. *)
Definition rotate (st : State) : State :=
  let r := rotation st in
  mkState (materials st) (mkEuler (x r) (y r + 0.01) (z r))
          (sizes st) (camera st) (renderer st) (log st ++ [RotateMesh]).

Definition tick (st : State) : option State :=
  st <- add_uTime 0 st ;;
  st <- add_uTime 3 st ;;
  let st := rotate st in
  let st := emit [ControlsUpdate] st in
  let st := emit [Render] st in
  let st := emit [RequestAnimationFrame] st in
  Some st.

(** [n] frames in a row. *)
Fixpoint ticks (n : nat) (st : State) : option State :=
  match n with
  | O => Some st
  | S k => st' <- tick st ;; ticks k st'
  end.

(** What the host delivers to the script. *)
Inductive Event :=
| Resize (w : Window)
| Frame.

Definition step (e : Event) (st : State) : option State :=
  match e with
  | Resize w => Some (resize w st)
  | Frame => tick st
  end.

Fixpoint run (es : list Event) (st : State) : option State :=
  match es with
  | [] => Some st
  | e :: rest => st' <- step e st ;; run rest st'
  end.

(** [materials[i].uniforms.uTime.value], read without throwing. *)
Definition uTime_of (i : nat) (st : State) : option float :=
  m <- nth_error (materials st) i ;;
  JS.get_value "uTime" (uniforms m).

(** The materials array when both time uniforms hold [t0] and [t3]. *)
Definition materials_at (t0 t3 : float) : list ShaderMaterial :=
  [ mkMaterial Waves [("uTime", t0)];
    mkMaterial Checkerboard [];
    mkMaterial RadialGradient [];
    mkMaterial Ripple [("uTime", t3)] ].

(** [n] additions of the literal [0.01], in binary64. *)
Definition advance (n : nat) (t : float) : float :=
  Nat.iter n (fun t => t + 0.01) t.

(** The effects of one frame, in the order of the source. *)
Definition frame_effects : list Effect :=
  [ WriteUniform 0 "uTime"; WriteUniform 3 "uTime"; RotateMesh;
    ControlsUpdate; Render; RequestAnimationFrame ].

Definition frames (es : list Event) : nat :=
  List.length (filter (fun e => match e with Frame => true | _ => false end) es).

(** The last window of [es], or [w] if no resize occurs. *)
Fixpoint last_window (es : list Event) (w : Window) : Window :=
  match es with
  | [] => w
  | Resize w' :: rest => last_window rest w'
  | Frame :: rest => last_window rest w
  end.

End Pyramid.

(** A window used in the examples below. *)
Definition window0 : Window := mkWindow 1280 720 1.

(** The point (0, 1, 0) of the unit sphere with its outward normal: the
    top vertex of the sun's sphere. *)
Definition north_pole : GLSL.Attributes :=
  GLSL.mkAttributes (GLSL.mkVec3 0 1 0) (GLSL.mkVec3 0 1 0) (GLSL.mkVec2 0 1).

(** ** The model on small inputs *)

Example Math_min_below : JS.Math_min 1.5 2 = 1.5%float.
Proof. reflexivity. Qed.

Example Math_min_above : JS.Math_min 3 2 = 2%float.
Proof. reflexivity. Qed.

Example Math_min_nan : PrimFloat.is_nan (JS.Math_min nan 2) = true.
Proof. reflexivity. Qed.

Example Math_min_zeros :
  PrimFloat.get_sign (JS.Math_min (-0) 0) = true /\
  PrimFloat.get_sign (JS.Math_min 0 (-0)) = true.
Proof. split; reflexivity. Qed.

Example pyramid_three_frames :
  option_map (fun st => (Pyramid.y (Pyramid.rotation st), Pyramid.uTime_of 0 st,
                         Pyramid.uTime_of 1 st))
             (Pyramid.ticks 3 (Pyramid.init window0)) =
  Some (0.03%float, Some 0.03%float, None).
Proof. vm_compute. reflexivity. Qed.

(** A frame throws when the first material has no [uTime] uniform. *)
Example pyramid_tick_throws :
  Pyramid.tick (Pyramid.mkState [Pyramid.mkMaterial Pyramid.Checkerboard []]
                  (Pyramid.mkEuler 0 0 0) (mkSizes 1 1)
                  (mkCamera 75 1 0.1 100) (mkRenderer 1 1 1) []) = None.
Proof. reflexivity. Qed.

Example sun_resize_example :
  let st := Sun.resize (mkWindow 800 600 3) (Sun.init window0) in
  aspect (Sun.camera st) = (800 / 600)%float /\
  pixelRatio (Sun.renderer st) = 2%float.
Proof. split; reflexivity. Qed.

(** ** Properties of the pyramid script *)

Section PyramidFrames.

Import Pyramid.
Local Open Scope float_scope.

(** One frame from a state whose materials have the constructed shape:
    it does not throw, both time uniforms and the angle get the same
    addend, and the six effects are appended in source order. *)
Lemma tick_materials_at (st : State) (t0 t3 : float) :
  materials st = materials_at t0 t3 ->
  tick st =
    Some (mkState (materials_at (t0 + 0.01) (t3 + 0.01))
                  (mkEuler (x (rotation st)) (y (rotation st) + 0.01)
                           (z (rotation st)))
                  (sizes st) (camera st) (renderer st)
                  (log st ++ frame_effects)).
Proof.
  destruct st as [ms rot sz cam rdr lg]; simpl; intros ->.
  unfold tick, add_uTime, rotate, emit; simpl.
  now rewrite <- !app_assoc.
Qed.

Lemma advance_succ (n : nat) (t : float) :
  advance n (t + 0.01) = advance n t + 0.01.
Proof.
  unfold advance. induction n as [|n IH]; simpl; [reflexivity|].
  now rewrite IH.
Qed.

Lemma ticks_materials_at (n : nat) :
  forall (st : State) (t0 t3 : float),
    materials st = materials_at t0 t3 ->
    exists st',
      ticks n st = Some st' /\
      materials st' = materials_at (advance n t0) (advance n t3) /\
      y (rotation st') = advance n (y (rotation st)).
Proof.
  induction n as [|n IH]; intros st t0 t3 Hm.
  - exists st. now repeat split.
  - simpl. rewrite (tick_materials_at st t0 t3 Hm). simpl.
    match goal with
    | |- context [ticks n ?s] =>
        destruct (IH s (t0 + 0.01) (t3 + 0.01) eq_refl) as (st' & Hrun & Hms & Hy)
    end.
    exists st'. split; [exact Hrun|].
    rewrite Hms, Hy. simpl. now rewrite <- !advance_succ.
Qed.

Lemma uTime_of_materials_at (st : State) (t0 t3 : float) :
  materials st = materials_at t0 t3 ->
  uTime_of 0 st = Some t0 /\ uTime_of 3 st = Some t3.
Proof. unfold uTime_of; intros ->; now split. Qed.

Lemma float_discr (a b : float) : PrimFloat.eqb a a <> PrimFloat.eqb a b -> a <> b.
Proof. intros H E. apply H. now rewrite <- E. Qed.

Lemma some_float_discr (a b : float) :
  PrimFloat.eqb a a <> PrimFloat.eqb a b -> Some a <> Some b.
Proof. intros H E. injection E as E. now apply (float_discr a b). Qed.

Lemma add_uTime_log (i : nat) (st st' : State) :
  add_uTime i st = Some st' ->
  log st' = log st ++ [WriteUniform i "uTime"] /\
  sizes st' = sizes st /\ camera st' = camera st /\ renderer st' = renderer st.
Proof.
  unfold add_uTime.
  destruct (nth_error (materials st) i) as [m|]; simpl; [|discriminate].
  destruct (JS.get_value "uTime" (uniforms m)) as [t|]; simpl; [|discriminate].
  destruct (JS.assign_value "uTime" (t + 0.01) (uniforms m)) as [u|]; simpl;
    [|discriminate].
  intros [= <-]. now repeat split.
Qed.

(** A frame that does not throw appends its six effects and leaves the
    camera, the sizes and the renderer alone. *)
Lemma tick_log (st st' : State) :
  tick st = Some st' ->
  log st' = log st ++ frame_effects /\
  sizes st' = sizes st /\ camera st' = camera st /\ renderer st' = renderer st.
Proof.
  unfold tick.
  destruct (add_uTime 0 st) as [st1|] eqn:E1; simpl; [|discriminate].
  destruct (add_uTime 3 st1) as [st2|] eqn:E2; simpl; [|discriminate].
  intros [= <-]. simpl.
  destruct (add_uTime_log _ _ _ E1) as (L1 & S1 & C1 & R1).
  destruct (add_uTime_log _ _ _ E2) as (L2 & S2 & C2 & R2).
  rewrite L2, L1, S2, S1, C2, C1, R2, R1, <- !app_assoc.
  now repeat split.
Qed.

End PyramidFrames.

(** ** Properties of the sun script *)

Section SunFrames.

Import Sun.
Local Open Scope float_scope.

(** A frame that does not throw appends its five effects and leaves the
    camera, the sizes and the renderer alone. *)
Lemma sun_tick_log (t : float) (st st' : State) :
  tick t st = Some st' ->
  log st' = log st ++ frame_effects /\
  sizes st' = sizes st /\ camera st' = camera st /\ renderer st' = renderer st.
Proof.
  unfold tick, set_uTime. simpl.
  destruct (JS.assign_value "uTime" t (uniforms st)) as [u|]; simpl;
    [|discriminate].
  intros [= <-]. simpl. rewrite <- !app_assoc. now repeat split.
Qed.

(** From the constructed uniforms a frame never throws. *)
Lemma sun_tick_total (t : float) (st : State) :
  JS.get_value "uTime" (uniforms st) <> None ->
  exists st', tick t st = Some st'.
Proof.
  intros H. unfold tick, set_uTime, JS.assign_value. simpl.
  destruct (JS.get_value "uTime" (uniforms st)); [|contradiction].
  simpl. eexists; reflexivity.
Qed.

End SunFrames.

(** C4, as stated, fails: a hundred binary64 additions of [0.01] do not
    give [1]; the angle and both time uniforms end at [1 + 3 * 2^-52]. *)
Lemma hundred_ticks_not_one :
  exists st,
    Pyramid.ticks 100 (Pyramid.init window0) = Some st /\
    Pyramid.y (Pyramid.rotation st) <> 1%float /\
    Pyramid.uTime_of 0 st <> Some 1%float /\
    Pyramid.uTime_of 3 st <> Some 1%float /\
    PrimFloat.eqb (Pyramid.y (Pyramid.rotation st)) 1 = false.
Proof.
  eexists. split; [vm_compute; reflexivity|].
  split; [|split; [|split]].
  - apply float_discr; vm_compute; discriminate.
  - vm_compute. apply some_float_discr; vm_compute; discriminate.
  - vm_compute. apply some_float_discr; vm_compute; discriminate.
  - vm_compute. reflexivity.
Qed.

(** C4 (amended): from the initial state of the pyramid demo, for any
    window, a hundred frames run without throwing and leave
    [pyramid.rotation.y] and the [uTime] uniforms of [materials[0]] and
    [materials[3]] at the binary64 number [0x1.0000000000003p+0], that is
    [1 + 3 * 2^-52], which prints as 1.0000000000000007. *)
Theorem hundred_ticks (w : Window) :
  exists st,
    Pyramid.ticks 100 (Pyramid.init w) = Some st /\
    Pyramid.y (Pyramid.rotation st) = 0x1.0000000000003p+0%float /\
    Pyramid.uTime_of 0 st = Some 0x1.0000000000003p+0%float /\
    Pyramid.uTime_of 3 st = Some 0x1.0000000000003p+0%float.
Proof.
  destruct (ticks_materials_at 100 (Pyramid.init w) 0 0 eq_refl)
    as (st & Hrun & Hms & Hy).
  exists st. split; [exact Hrun|].
  destruct (uTime_of_materials_at st _ _ Hms) as [H0 H3].
  change (Pyramid.y (Pyramid.rotation (Pyramid.init w))) with 0%float in Hy.
  assert (E : Pyramid.advance 100 0 = 0x1.0000000000003p+0%float)
    by (vm_compute; reflexivity).
  rewrite Hy, H0, H3, E. repeat split.
Qed.

(** C9: after any number of frames since startup the [uTime] uniform of
    [materials[0]] equals that of [materials[3]]: both hold the result of
    [n] additions of [0.01] to [0]. *)
Theorem uTime_in_phase (w : Window) (n : nat) :
  exists st,
    Pyramid.ticks n (Pyramid.init w) = Some st /\
    Pyramid.uTime_of 0 st = Some (Pyramid.advance n 0) /\
    Pyramid.uTime_of 3 st = Some (Pyramid.advance n 0) /\
    Pyramid.uTime_of 0 st = Pyramid.uTime_of 3 st.
Proof.
  destruct (ticks_materials_at n (Pyramid.init w) 0 0 eq_refl)
    as (st & Hrun & Hms & _).
  exists st. split; [exact Hrun|].
  destruct (uTime_of_materials_at st _ _ Hms) as [H0 H3].
  rewrite H0, H3. now repeat split.
Qed.

(** In both scripts the camera aspect stays [sizes.width / sizes.height]
    and the renderer keeps the dimensions of [sizes] through every
    sequence of resizes and frames after startup. *)
Lemma pyramid_display_invariant (es : list Pyramid.Event) :
  forall st st',
    display_consistent (Pyramid.sizes st) (Pyramid.camera st) (Pyramid.renderer st) ->
    Pyramid.run es st = Some st' ->
    display_consistent (Pyramid.sizes st') (Pyramid.camera st') (Pyramid.renderer st').
Proof.
  induction es as [|e es IH]; intros st st' Hinv; simpl.
  - now intros [= <-].
  - destruct e as [w|]; simpl.
    + apply IH. now repeat split.
    + destruct (Pyramid.tick st) as [st1|] eqn:E; simpl; [|discriminate].
      apply IH. destruct (tick_log _ _ E) as (_ & -> & -> & ->). exact Hinv.
Qed.

Lemma sun_display_invariant (es : list Sun.Event) :
  forall st st',
    display_consistent (Sun.sizes st) (Sun.camera st) (Sun.renderer st) ->
    Sun.run es st = Some st' ->
    display_consistent (Sun.sizes st') (Sun.camera st') (Sun.renderer st').
Proof.
  induction es as [|e es IH]; intros st st' Hinv; simpl.
  - now intros [= <-].
  - destruct e as [w|t]; simpl.
    + apply IH. now repeat split.
    + destruct (Sun.tick t st) as [st1|] eqn:E; simpl; [|discriminate].
      apply IH. destruct (sun_tick_log _ _ _ E) as (_ & -> & -> & ->). exact Hinv.
Qed.

(** C5, as stated, fails on the pyramid script: its frame increments the
    rotation before it updates the camera controls, and reads no elapsed
    time. *)
Lemma pyramid_rotates_before_controls :
  exists st',
    Pyramid.tick (Pyramid.init window0) = Some st' /\
    let frame := appended (Pyramid.log (Pyramid.init window0)) (Pyramid.log st') in
    frame = [ WriteUniform 0 "uTime"; WriteUniform 3 "uTime"; RotateMesh;
              ControlsUpdate; Render; RequestAnimationFrame ] /\
    occurs_before is_controls_update is_rotate_mesh frame = false /\
    occurs_before is_rotate_mesh is_controls_update frame = true /\
    first_index is_read_elapsed frame = None.
Proof.
  eexists. split; [vm_compute; reflexivity|].
  vm_compute. repeat split.
Qed.

(** C5 (amended): every frame of the pyramid script that completes
    performs, in this order: the two [uTime] increments, the rotation
    increment, the camera-controls update, the draw call, the
    re-scheduling; every frame of the sun script that completes performs,
    in this order: the read of the elapsed time, the write of [uTime], the
    camera-controls update, the draw call, the re-scheduling. *)
Theorem tick_order (ps ps' : Pyramid.State) (t : float) (ss ss' : Sun.State) :
  Pyramid.tick ps = Some ps' ->
  Sun.tick t ss = Some ss' ->
  Pyramid.log ps' =
    Pyramid.log ps ++
      [ WriteUniform 0 "uTime"; WriteUniform 3 "uTime"; RotateMesh;
        ControlsUpdate; Render; RequestAnimationFrame ] /\
  Sun.log ss' =
    Sun.log ss ++
      [ ReadElapsedTime; WriteUniform 0 "uTime"; ControlsUpdate; Render;
        RequestAnimationFrame ].
Proof.
  intros Hp Hs. split.
  - now destruct (tick_log _ _ Hp) as [-> _].
  - now destruct (sun_tick_log _ _ _ Hs) as [-> _].
Qed.

Lemma tick_order_witness :
  exists ps' ss',
    Pyramid.tick (Pyramid.init window0) = Some ps' /\
    Sun.tick 5 (Sun.init window0) = Some ss' /\
    Pyramid.log ps' =
      Pyramid.log (Pyramid.init window0) ++
        [ WriteUniform 0 "uTime"; WriteUniform 3 "uTime"; RotateMesh;
          ControlsUpdate; Render; RequestAnimationFrame ] /\
    Sun.log ss' =
      Sun.log (Sun.init window0) ++
        [ ReadElapsedTime; WriteUniform 0 "uTime"; ControlsUpdate; Render;
          RequestAnimationFrame ].
Proof.
  eexists. eexists.
  split; [vm_compute; reflexivity|].
  split; [vm_compute; reflexivity|].
  apply (tick_order (Pyramid.init window0) _ 5%float (Sun.init window0) _);
    vm_compute; reflexivity.
Defined.

(** C6: in both scripts, after the resize listener has run on a window of
    dimensions [innerWidth] and [innerHeight], the camera aspect is the
    quotient [innerWidth / innerHeight], the sizes and the renderer hold
    these dimensions, and the pixel ratio is
    [Math.min(devicePixelRatio, 2)]; so the aspect equals
    [sizes.width / sizes.height]. *)
Theorem resize_sets_aspect (w : Window) (ss : Sun.State) (ps : Pyramid.State) :
  let ss' := Sun.resize w ss in
  let ps' := Pyramid.resize w ps in
  let ratio := JS.Math_min (devicePixelRatio w) 2 in
  (aspect (Sun.camera ss') = (innerWidth w / innerHeight w)%float /\
   Sun.sizes ss' = mkSizes (innerWidth w) (innerHeight w) /\
   Sun.renderer ss' = mkRenderer (innerWidth w) (innerHeight w) ratio /\
   aspect (Sun.camera ss') = (width (Sun.sizes ss') / height (Sun.sizes ss'))%float /\
   appended (Sun.log ss) (Sun.log ss') =
     [ UpdateProjectionMatrix; SetSize (innerWidth w) (innerHeight w);
       SetPixelRatio ratio ]) /\
  (aspect (Pyramid.camera ps') = (innerWidth w / innerHeight w)%float /\
   Pyramid.sizes ps' = mkSizes (innerWidth w) (innerHeight w) /\
   Pyramid.renderer ps' = mkRenderer (innerWidth w) (innerHeight w) ratio /\
   aspect (Pyramid.camera ps') =
     (width (Pyramid.sizes ps') / height (Pyramid.sizes ps'))%float /\
   appended (Pyramid.log ps) (Pyramid.log ps') =
     [ UpdateProjectionMatrix; SetSize (innerWidth w) (innerHeight w);
       SetPixelRatio ratio ]).
Proof.
  assert (Happ : forall l e : list Effect, appended l (l ++ e) = e).
  { intros l e. unfold appended. induction l; simpl; auto. }
  simpl. rewrite !Happ. repeat split.
Qed.

(** ** Properties of the shaders *)

Section Trigonometry.

Local Open Scope R_scope.

Lemma PI_lt_10_3 : PI < 10 / 3.
Proof.
  destruct (PI_ineq 3) as [_ H].
  unfold tg_alt, PI_tg in H. simpl in H. lra.
Qed.

Lemma PI_gt_3 : 3 < PI.
Proof. pose proof PI2_3_2. lra. Qed.

(** 10 lies strictly between [3 * PI] and [4 * PI]. *)
Lemma sin_10_neg : sin 10 < 0.
Proof.
  replace 10 with ((10 - 2 * PI) + 2 * INR 1 * PI) by (simpl; lra).
  rewrite sin_period.
  pose proof PI_lt_10_3. pose proof PI_gt_3.
  apply sin_lt_0; lra.
Qed.

Lemma sin_shift_period (x : R) : sin (x + 2 * PI) = sin x.
Proof.
  replace (x + 2 * PI) with (x + 2 * INR 1 * PI) by (simpl; lra).
  apply sin_period.
Qed.

Lemma Rabs_sin_le_1 (x : R) : Rabs (sin x) <= 1.
Proof. apply Rabs_le. pose proof (SIN_bound x). lra. Qed.

End Trigonometry.

Section Floor.

Import GLSL.
Local Open Scope R_scope.

Lemma Zfloor_half (n : Z) : Zfloor (IZR n / 2) = (n / 2)%Z.
Proof.
  apply Zfloor_eq.
  pose proof (Z.div_mod n 2 ltac:(lia)) as Hdm.
  pose proof (Z.mod_pos_bound n 2 ltac:(lia)) as [Hlo Hhi].
  assert (E : IZR n = 2 * IZR (n / 2) + IZR (n mod 2)).
  { rewrite Hdm at 1. now rewrite plus_IZR, mult_IZR. }
  apply IZR_le in Hlo. apply IZR_lt in Hhi.
  rewrite E. lra.
Qed.

(** On an integer, [mod(., 2.0)] is the parity. *)
Lemma mod_2_parity (n : Z) : mod_ (IZR n) 2 = IZR (n mod 2).
Proof.
  unfold mod_, floor. rewrite Zfloor_half.
  pose proof (Z.div_mod n 2 ltac:(lia)) as Hdm.
  replace (n mod 2)%Z with (n - 2 * (n / 2))%Z by lia.
  now rewrite minus_IZR, mult_IZR.
Qed.

Lemma checker_parity (vUv : vec2) :
  PyramidShader.checker vUv =
  IZR ((Zfloor (x2 vUv * 10) + Zfloor (y2 vUv * 10)) mod 2).
Proof.
  unfold PyramidShader.checker, floor.
  now rewrite <- plus_IZR, mod_2_parity.
Qed.

Lemma Zfloor_shift_cell (u : R) : Zfloor ((u + 0.1) * 10) = (Zfloor (u * 10) + 1)%Z.
Proof.
  replace ((u + 0.1) * 10) with (u * 10 + IZR 1) by lra.
  apply Zfloor_addz.
Qed.

End Floor.

Section SunVertex.

Import GLSL SunShader.
Local Open Scope R_scope.

Lemma displacement_at_rest (p : vec3) :
  displacement default_uniforms p =
  0.15 * (sin (x3 p * 10) * 0.05 + sin (y3 p * 10) * 0.03).
Proof.
  unfold displacement, wave, smallWave, default_uniforms; simpl.
  rewrite !Rmult_0_l, !Rplus_0_r. ring.
Qed.

Lemma length3_scale3 (v : vec3) (s : R) :
  length3 (scale3 v s) = Rabs s * length3 v.
Proof.
  unfold length3, scale3; simpl.
  replace (x3 v * s * (x3 v * s) + y3 v * s * (y3 v * s) + z3 v * s * (z3 v * s))
    with (Rsqr s * (x3 v * x3 v + y3 v * y3 v + z3 v * z3 v))
    by (unfold Rsqr; ring).
  rewrite sqrt_mult; [|apply Rle_0_sqr|nra].
  now rewrite sqrt_Rsqr_abs.
Qed.

Lemma displacement_bound (u : Uniforms) (p : vec3) :
  Rabs (displacement u p) <= 0.08 * Rabs (uWaveHeight u).
Proof.
  unfold displacement, wave, smallWave.
  set (s1 := sin _). set (s2 := sin _).
  rewrite Rabs_mult.
  assert (H : Rabs (s1 * 0.05 + s2 * 0.03) <= 0.08).
  { pose proof (SIN_bound (x3 p * 10 + uTime u * uWaveSpeed u)) as B1.
    pose proof (SIN_bound (y3 p * uSmallWaveFrequency u + uTime u * uSmallWaveSpeed u)) as B2.
    fold s1 in B1. fold s2 in B2.
    apply Rabs_le. lra. }
  pose proof (Rabs_pos (uWaveHeight u)). nra.
Qed.

End SunVertex.

(** C1, as stated, fails: with the constructed uniforms and [uTime = 0]
    the top vertex (0, 1, 0) of the sphere is displaced by
    [0.15 * 0.03 * sin 10], which is negative. *)
Lemma north_pole_displaced :
  (SunShader.displacement SunShader.default_uniforms (GLSL.position north_pole) < 0)%R /\
  SunShader.displacement SunShader.default_uniforms (GLSL.position north_pole) <> 0%R /\
  SunShader.newPosition SunShader.default_uniforms north_pole <> GLSL.position north_pole.
Proof.
  assert (E : SunShader.displacement SunShader.default_uniforms (GLSL.position north_pole)
              = (0.15 * 0.03 * sin 10)%R).
  { rewrite displacement_at_rest. simpl.
    rewrite Rmult_0_l, sin_0, Rmult_1_l. lra. }
  pose proof sin_10_neg as Hneg.
  split; [rewrite E; lra|]. split; [rewrite E; lra|].
  unfold SunShader.newPosition. rewrite E. simpl.
  intros H. apply (f_equal GLSL.y3) in H. simpl in H. lra.
Qed.

(** C1 (amended): with the constructed uniforms and [uTime = 0] the time
    terms vanish and the displacement at a position (x, y, z) is
    [0.15 * (sin (10 x) * 0.05 + sin (10 y) * 0.03)]; at positions with
    [x = 0] and [y = 0] it is 0 and the displaced position is the input
    position. *)
Theorem sun_at_rest (px py pz : R) (n : GLSL.vec3) (uv : GLSL.vec2) :
  SunShader.uTime SunShader.default_uniforms = 0%R /\
  SunShader.displacement SunShader.default_uniforms (GLSL.mkVec3 px py pz) =
    (0.15 * (sin (px * 10) * 0.05 + sin (py * 10) * 0.03))%R /\
  SunShader.displacement SunShader.default_uniforms (GLSL.mkVec3 0 0 pz) = 0%R /\
  SunShader.newPosition SunShader.default_uniforms
    (GLSL.mkAttributes (GLSL.mkVec3 0 0 pz) n uv) = GLSL.mkVec3 0 0 pz.
Proof.
  assert (Z0 : SunShader.displacement SunShader.default_uniforms (GLSL.mkVec3 0 0 pz) = 0%R).
  { rewrite displacement_at_rest. simpl. rewrite Rmult_0_l, sin_0. lra. }
  split; [reflexivity|]. split; [apply displacement_at_rest|].
  split; [exact Z0|].
  unfold SunShader.newPosition. simpl GLSL.position. rewrite Z0.
  unfold GLSL.add3, GLSL.scale3; simpl. f_equal; lra.
Qed.

(** C3: for every vertex, time and uniform values the sun vertex shader
    passes [uv] on and projects [position + normal * displacement], where
    [displacement = uWaveHeight * (sin (x * 10 + uTime * uWaveSpeed) * 0.05
    + sin (y * uSmallWaveFrequency + uTime * uSmallWaveSpeed) * 0.03)]. *)
Theorem sun_vertex_formula (u : SunShader.Uniforms) (m : GLSL.Matrices) (a : GLSL.Attributes) :
  let p := GLSL.position a in
  let n := GLSL.normal a in
  let d :=
    (SunShader.uWaveHeight u *
       (sin (GLSL.x3 p * 10 + SunShader.uTime u * SunShader.uWaveSpeed u) * 0.05 +
        sin (GLSL.y3 p * SunShader.uSmallWaveFrequency u
             + SunShader.uTime u * SunShader.uSmallWaveSpeed u) * 0.03))%R in
  SunShader.displacement u p = d /\
  SunShader.newPosition u a =
    GLSL.mkVec3 (GLSL.x3 p + GLSL.x3 n * d) (GLSL.y3 p + GLSL.y3 n * d)
                (GLSL.z3 p + GLSL.z3 n * d) /\
  GLSL.gl_Position (SunShader.vertexShader u m a) =
    GLSL.project m
      (GLSL.mkVec3 (GLSL.x3 p + GLSL.x3 n * d) (GLSL.y3 p + GLSL.y3 n * d)
                   (GLSL.z3 p + GLSL.z3 n * d)) /\
  GLSL.vUv (SunShader.vertexShader u m a) = GLSL.uv a.
Proof.
  intros p n d.
  assert (E : SunShader.displacement u p = d).
  { unfold SunShader.displacement, SunShader.wave, SunShader.smallWave, d. ring. }
  assert (N : SunShader.newPosition u a =
              GLSL.mkVec3 (GLSL.x3 p + GLSL.x3 n * d) (GLSL.y3 p + GLSL.y3 n * d)
                          (GLSL.z3 p + GLSL.z3 n * d)).
  { unfold SunShader.newPosition, GLSL.add3, GLSL.scale3. fold p n. now rewrite E. }
  split; [exact E|]. split; [exact N|]. split; [|reflexivity].
  unfold SunShader.vertexShader. simpl GLSL.gl_Position. now rewrite N.
Qed.

(** C7: at a fixed vertex and fixed uniforms with non-zero [uWaveSpeed] and
    [uSmallWaveSpeed], the displacement is a continuous function of the
    time, its first term [wave] has period [2 * PI / uWaveSpeed] and its
    second term [smallWave] has period [2 * PI / uSmallWaveSpeed]. *)
Theorem sun_displacement_periodic (u : SunShader.Uniforms) (p : GLSL.vec3) :
  SunShader.uWaveSpeed u <> 0%R ->
  SunShader.uSmallWaveSpeed u <> 0%R ->
  continuity (fun t => SunShader.displacement (SunShader.with_time u t) p) /\
  (forall t : R,
     SunShader.wave (SunShader.with_time u (t + 2 * PI / SunShader.uWaveSpeed u)) p =
     SunShader.wave (SunShader.with_time u t) p) /\
  (forall t : R,
     SunShader.smallWave
       (SunShader.with_time u (t + 2 * PI / SunShader.uSmallWaveSpeed u)) p =
     SunShader.smallWave (SunShader.with_time u t) p).
Proof.
  intros Hw Hs. split; [|split].
  - unfold SunShader.displacement, SunShader.wave, SunShader.smallWave,
      SunShader.with_time; simpl. reg.
  - intros t. unfold SunShader.wave, SunShader.with_time; simpl.
    f_equal. rewrite <- (sin_shift_period (_ + t * _)). f_equal. field. exact Hw.
  - intros t. unfold SunShader.smallWave, SunShader.with_time; simpl.
    f_equal. rewrite <- (sin_shift_period (_ + t * _)). f_equal. field. exact Hs.
Qed.

Lemma sun_displacement_periodic_witness :
  SunShader.uWaveSpeed SunShader.default_uniforms <> 0%R /\
  SunShader.uSmallWaveSpeed SunShader.default_uniforms <> 0%R /\
  forall t : R,
    SunShader.wave (SunShader.with_time SunShader.default_uniforms (t + 2 * PI / 1)) (GLSL.mkVec3 0 1 0) =
    SunShader.wave (SunShader.with_time SunShader.default_uniforms t) (GLSL.mkVec3 0 1 0).
Proof.
  assert (H1 : SunShader.uWaveSpeed SunShader.default_uniforms <> 0%R) by (simpl; lra).
  assert (H2 : SunShader.uSmallWaveSpeed SunShader.default_uniforms <> 0%R) by (simpl; lra).
  split; [exact H1|]. split; [exact H2|].
  exact (proj1 (proj2 (sun_displacement_periodic SunShader.default_uniforms
                         (GLSL.mkVec3 0 1 0) H1 H2))).
Defined.

(** C10: for every vertex, time and uniform values the sun displacement is
    at most [0.08 * |uWaveHeight|] in magnitude, its two terms being at
    most 0.05 and 0.03; the displaced position differs from the input
    position by [normal * displacement], whose length is at most
    [0.08 * |uWaveHeight|] times the length of the normal. *)
Theorem sun_displacement_bounded (u : SunShader.Uniforms) (a : GLSL.Attributes) :
  (Rabs (SunShader.wave u (GLSL.position a)) <= 0.05)%R /\
  (Rabs (SunShader.smallWave u (GLSL.position a)) <= 0.03)%R /\
  (Rabs (SunShader.displacement u (GLSL.position a))
     <= 0.08 * Rabs (SunShader.uWaveHeight u))%R /\
  GLSL.sub3 (SunShader.newPosition u a) (GLSL.position a) =
    GLSL.scale3 (GLSL.normal a) (SunShader.displacement u (GLSL.position a)) /\
  (GLSL.length3 (GLSL.sub3 (SunShader.newPosition u a) (GLSL.position a))
     <= 0.08 * Rabs (SunShader.uWaveHeight u) * GLSL.length3 (GLSL.normal a))%R.
Proof.
  assert (D : GLSL.sub3 (SunShader.newPosition u a) (GLSL.position a) =
              GLSL.scale3 (GLSL.normal a) (SunShader.displacement u (GLSL.position a))).
  { unfold SunShader.newPosition, GLSL.sub3, GLSL.add3, GLSL.scale3; simpl.
    f_equal; ring. }
  split; [|split; [|split; [|split]]].
  - unfold SunShader.wave. rewrite Rabs_mult.
    pose proof (Rabs_sin_le_1 (GLSL.x3 (GLSL.position a) * 10
                               + SunShader.uTime u * SunShader.uWaveSpeed u)%R).
    rewrite (Rabs_pos_eq 0.05) by lra. lra.
  - unfold SunShader.smallWave. rewrite Rabs_mult.
    pose proof (Rabs_sin_le_1 (GLSL.y3 (GLSL.position a) * SunShader.uSmallWaveFrequency u
                               + SunShader.uTime u * SunShader.uSmallWaveSpeed u)%R).
    rewrite (Rabs_pos_eq 0.03) by lra. lra.
  - apply displacement_bound.
  - exact D.
  - rewrite D, length3_scale3.
    pose proof (displacement_bound u (GLSL.position a)).
    assert (0 <= GLSL.length3 (GLSL.normal a))%R by apply sqrt_pos.
    nra.
Qed.

(** C2, as stated, fails: the shift by 0.1 from (0.05, 0.05) to
    (0.15, 0.05) crosses the cell boundary at 0.1 and changes the parity
    from 0 to 1. *)
Lemma checker_shift_changes_parity :
  PyramidShader.checker (GLSL.mkVec2 0.05 0.05) = 0%R /\
  PyramidShader.checker (GLSL.mkVec2 (0.05 + 0.1) 0.05) = 1%R /\
  PyramidShader.checker (GLSL.mkVec2 (0.05 + 0.1) 0.05) <>
  PyramidShader.checker (GLSL.mkVec2 0.05 0.05).
Proof.
  assert (F0 : Zfloor (0.05 * 10) = 0%Z) by (apply Zfloor_eq; lra).
  assert (E0 : PyramidShader.checker (GLSL.mkVec2 0.05 0.05) = 0%R).
  { rewrite checker_parity. simpl. now rewrite F0. }
  assert (E1 : PyramidShader.checker (GLSL.mkVec2 (0.05 + 0.1) 0.05) = 1%R).
  { rewrite checker_parity. simpl. now rewrite Zfloor_shift_cell, F0. }
  split; [exact E0|]. split; [exact E1|].
  rewrite E0, E1. lra.
Qed.

(** C2 (amended): for all (u, v) in the unit square the checkerboard value
    [mod(floor(10 u) + floor(10 v), 2)] is 0 or 1, and the shift of [u] by
    0.1, one cell, flips it: the value at (u + 0.1, v) is one minus the
    value at (u, v). *)
Theorem checker_shift_flips (u v : R) :
  (0 <= u <= 1)%R -> (0 <= v <= 1)%R ->
  (PyramidShader.checker (GLSL.mkVec2 u v) = 0%R \/
   PyramidShader.checker (GLSL.mkVec2 u v) = 1%R) /\
  PyramidShader.checker (GLSL.mkVec2 (u + 0.1) v) =
    (1 - PyramidShader.checker (GLSL.mkVec2 u v))%R.
Proof.
  intros _ _. rewrite !checker_parity. simpl.
  rewrite Zfloor_shift_cell.
  set (k := (Zfloor (u * 10) + Zfloor (v * 10))%Z).
  replace (Zfloor (u * 10) + 1 + Zfloor (v * 10))%Z with (k + 1)%Z by (unfold k; lia).
  pose proof (Z.mod_pos_bound k 2 ltac:(lia)) as Hk.
  assert (Hflip : ((k + 1) mod 2 = 1 - k mod 2)%Z).
  { pose proof (Z.div_mod k 2 ltac:(lia)).
    pose proof (Z.div_mod (k + 1) 2 ltac:(lia)).
    pose proof (Z.mod_pos_bound (k + 1) 2 ltac:(lia)).
    lia. }
  rewrite Hflip, minus_IZR. split; [|reflexivity].
  assert (C : (k mod 2 = 0 \/ k mod 2 = 1)%Z) by lia.
  destruct C as [-> | ->]; [now left | now right].
Qed.

Lemma checker_shift_flips_witness :
  (PyramidShader.checker (GLSL.mkVec2 0.25 0.75) = 0%R \/
   PyramidShader.checker (GLSL.mkVec2 0.25 0.75) = 1%R) /\
  PyramidShader.checker (GLSL.mkVec2 (0.25 + 0.1) 0.75) =
    (1 - PyramidShader.checker (GLSL.mkVec2 0.25 0.75))%R.
Proof. apply (checker_shift_flips 0.25 0.75); lra. Defined.

(** C8: the radial-gradient face passes its vertices on undisplaced, and
    at every UV coordinate its colour is (1 - d, d, 0) with [d] the
    distance from the coordinate to (0.5, 0.5); red plus green is 1 and
    blue is 0. *)
Theorem radial_gradient (m : GLSL.Matrices) (a : GLSL.Attributes) (vUv : GLSL.vec2) :
  let d :=
    R_sqrt.sqrt ((GLSL.x2 vUv - 0.5) * (GLSL.x2 vUv - 0.5) +
                 (GLSL.y2 vUv - 0.5) * (GLSL.y2 vUv - 0.5))%R in
  GLSL.gl_Position (PyramidShader.vertexShader3 m a) = GLSL.project m (GLSL.position a) /\
  GLSL.vUv (PyramidShader.vertexShader3 m a) = GLSL.uv a /\
  PyramidShader.fragmentShader3 vUv = GLSL.mkVec4 (1 - d) d 0 1 /\
  (GLSL.x4 (PyramidShader.fragmentShader3 vUv) +
   GLSL.y4 (PyramidShader.fragmentShader3 vUv) = 1)%R /\
  GLSL.z4 (PyramidShader.fragmentShader3 vUv) = 0%R.
Proof.
  intros d. repeat split.
  unfold PyramidShader.fragmentShader3, PyramidShader.dist; simpl. ring.
Qed.

(** ** More on the scripts: uniform objects, frames, resizes *)

Section JSObjects.

Local Open Scope string_scope.

Lemma get_set_same (k : string) (v : float) (u : JS.Uniforms) :
  JS.get_value k u <> None -> JS.get_value k (JS.set_value k v u) = Some v.
Proof.
  induction u as [|[k' v'] u IH]; simpl; [congruence|].
  destruct (String.eqb k k') eqn:E; simpl; rewrite E; auto.
Qed.

Lemma get_set_other (k k' : string) (v : float) (u : JS.Uniforms) :
  k' <> k -> JS.get_value k' (JS.set_value k v u) = JS.get_value k' u.
Proof.
  intros Hne. induction u as [|[k0 v0] u IH]; simpl; [reflexivity|].
  destruct (String.eqb k k0) eqn:E; simpl.
  - apply String.eqb_eq in E. subst k0.
    apply String.eqb_neq in Hne. now rewrite Hne.
  - now rewrite IH.
Qed.

Lemma assign_value_some (k : string) (v : float) (u : JS.Uniforms) :
  JS.get_value k u <> None -> JS.assign_value k v u = Some (JS.set_value k v u).
Proof.
  unfold JS.assign_value. now destruct (JS.get_value k u).
Qed.

Lemma assign_value_none (k : string) (v : float) (u : JS.Uniforms) :
  JS.assign_value k v u = None <-> JS.get_value k u = None.
Proof.
  unfold JS.assign_value. destruct (JS.get_value k u); split; congruence.
Qed.

Lemma nth_error_set_nth_same {A} (i : nat) (a : A) (l : list A) :
  nth_error l i <> None -> nth_error (JS.set_nth i a l) i = Some a.
Proof.
  revert i. induction l as [|b l IH]; intros [|i]; simpl; try congruence.
  apply IH.
Qed.

Lemma nth_error_set_nth_other {A} (i j : nat) (a : A) (l : list A) :
  i <> j -> nth_error (JS.set_nth i a l) j = nth_error l j.
Proof.
  revert i j. induction l as [|b l IH]; intros [|i] [|j] Hne; simpl;
    try congruence.
  apply IH. congruence.
Qed.

Lemma length_set_nth {A} (i : nat) (a : A) (l : list A) :
  List.length (JS.set_nth i a l) = List.length l.
Proof.
  revert i. induction l as [|b l IH]; intros [|i]; simpl; auto.
Qed.

Lemma count_effects_app (p : Effect -> bool) (l1 l2 : list Effect) :
  count_effects p (l1 ++ l2) = count_effects p l1 + count_effects p l2.
Proof.
  unfold count_effects. now rewrite filter_app, length_app.
Qed.

End JSObjects.

Section SunRuns.

Import Sun.
Local Open Scope string_scope.

Lemma sun_tick_effect (t : float) (st : State) :
  JS.get_value "uTime" (uniforms st) <> None ->
  tick t st =
    Some (mkState (JS.set_value "uTime" t (uniforms st))
                  (uSurfaceColor st) (uDepthColor st)
                  (sizes st) (camera st) (renderer st)
                  (log st ++ frame_effects)).
Proof.
  intros H. unfold tick, set_uTime. simpl.
  rewrite (assign_value_some _ _ _ H). unfold emit. simpl.
  now rewrite <- !app_assoc.
Qed.

Lemma sun_run_general (es : list Event) :
  forall (st : State) (t : float) (w : Window),
    JS.get_value "uTime" (uniforms st) = Some t ->
    (sizes st, camera st, renderer st) = display_of w ->
    exists st',
      run es st = Some st' /\
      JS.get_value "uTime" (uniforms st') = Some (last_frame_time es t) /\
      (forall k, k <> "uTime" ->
         JS.get_value k (uniforms st') = JS.get_value k (uniforms st)) /\
      uSurfaceColor st' = uSurfaceColor st /\
      uDepthColor st' = uDepthColor st /\
      (sizes st', camera st', renderer st') = display_of (last_window es w) /\
      count_effects is_render (log st') = count_effects is_render (log st) + frames es /\
      count_effects is_request_frame (log st') =
        count_effects is_request_frame (log st) + frames es /\
      count_effects is_read_elapsed (log st') =
        count_effects is_read_elapsed (log st) + frames es.
Proof.
  induction es as [|e es IH]; intros st t w Ht Hd.
  - exists st. cbn [run last_frame_time last_window frames filter List.length].
    rewrite !Nat.add_0_r. repeat split; auto.
  - destruct e as [w'|t'].
    + cbn [run step JS.bind last_frame_time last_window].
      destruct (IH (resize w' st) t w' Ht) as (st' & Hr & Hu & Ho & Hs & Hdc & Hdisp & C1 & C2 & C3).
      { unfold resize, display_of; cbn.
        injection Hd as _ Hc _. rewrite Hc. reflexivity. }
      exists st'. split; [exact Hr|]. split; [exact Hu|].
      split; [exact Ho|]. split; [exact Hs|]. split; [exact Hdc|].
      split; [exact Hdisp|].
      unfold frames in *. cbn [filter].
      rewrite C1, C2, C3. unfold resize; cbn [log].
      rewrite !count_effects_app. cbn. rewrite !Nat.add_0_r. auto.
    + cbn [run step JS.bind last_frame_time last_window].
      assert (Hp : JS.get_value "uTime" (uniforms st) <> None) by congruence.
      rewrite (sun_tick_effect t' st Hp). cbn [JS.bind].
      match goal with
      | |- context [run es ?s] =>
          destruct (IH s t' w) as (st' & Hr & Hu & Ho & Hs & Hdc & Hdisp & C1 & C2 & C3)
      end.
      { cbn [uniforms]. now apply get_set_same. }
      { exact Hd. }
      exists st'. split; [exact Hr|]. split; [exact Hu|].
      split.
      { intros k Hk. rewrite (Ho k Hk). cbn [uniforms]. now apply get_set_other. }
      split; [exact Hs|]. split; [exact Hdc|].
      split; [exact Hdisp|].
      unfold frames in *. cbn [filter List.length].
      rewrite C1, C2, C3. cbn [log].
      rewrite !count_effects_app. cbn. lia.
Qed.

End SunRuns.

(** X1: a frame of the sun script on a material that has a [uTime]
    uniform completes, leaves [uTime] at the elapsed time it read, and
    changes no other uniform, no colour, and nothing of the sizes, the
    camera and the renderer. *)
Theorem sun_tick_writes_time (t : float) (st : Sun.State) :
  JS.get_value "uTime" (Sun.uniforms st) <> None ->
  exists st',
    Sun.tick t st = Some st' /\
    JS.get_value "uTime" (Sun.uniforms st') = Some t /\
    (forall k, k <> "uTime"%string ->
       JS.get_value k (Sun.uniforms st') = JS.get_value k (Sun.uniforms st)) /\
    Sun.uSurfaceColor st' = Sun.uSurfaceColor st /\
    Sun.uDepthColor st' = Sun.uDepthColor st /\
    Sun.sizes st' = Sun.sizes st /\
    Sun.camera st' = Sun.camera st /\
    Sun.renderer st' = Sun.renderer st.
Proof.
  intros H. eexists. split; [apply (sun_tick_effect t st H)|].
  cbn [Sun.uniforms Sun.uSurfaceColor Sun.uDepthColor Sun.sizes Sun.camera Sun.renderer].
  split; [now apply get_set_same|].
  split; [intros k Hk; now apply get_set_other|].
  repeat split.
Qed.

Lemma sun_tick_writes_time_witness :
  exists st',
    Sun.tick 5 (Sun.init window0) = Some st' /\
    JS.get_value "uTime" (Sun.uniforms st') = Some 5%float /\
    JS.get_value "uWaveHeight" (Sun.uniforms st') = Some 0.15%float.
Proof.
  destruct (sun_tick_writes_time 5 (Sun.init window0)) as (st' & Ht & Hu & Ho & _).
  - simpl. discriminate.
  - exists st'. split; [exact Ht|]. split; [exact Hu|].
    rewrite Ho; [reflexivity|discriminate].
Defined.

Lemma sun_tick_missing (t : float) (st : Sun.State) :
  JS.get_value "uTime" (Sun.uniforms st) = None -> Sun.tick t st = None.
Proof.
  intros H. unfold Sun.tick, Sun.set_uTime. simpl.
  now rewrite (proj2 (assign_value_none _ _ _) H).
Qed.

(** X2: a frame of the sun script throws exactly when the material has no
    [uTime] uniform. *)
Theorem sun_tick_throws_iff (t : float) (st : Sun.State) :
  Sun.tick t st = None <-> JS.get_value "uTime" (Sun.uniforms st) = None.
Proof.
  split; [|apply sun_tick_missing].
  intros H. destruct (JS.get_value "uTime" (Sun.uniforms st)) eqn:E; [|reflexivity].
  rewrite sun_tick_effect in H by congruence. discriminate.
Qed.

(** X3: from startup, every sequence of resizes and frames of the sun
    script completes; afterwards [uTime] holds the elapsed time of the
    last frame (0 if there was none) and every other scalar uniform and
    both colours are as constructed. *)
Theorem sun_run_uniforms (w : Window) (es : list Sun.Event) :
  exists st,
    Sun.run es (Sun.init w) = Some st /\
    JS.get_value "uTime" (Sun.uniforms st) = Some (Sun.last_frame_time es 0) /\
    (forall k, k <> "uTime"%string ->
       JS.get_value k (Sun.uniforms st) = JS.get_value k Sun.initial_uniforms) /\
    Sun.uSurfaceColor st = (1.0, 0.5, 0.0)%float /\
    Sun.uDepthColor st = (1.0, 0.0, 0.0)%float.
Proof.
  destruct (sun_run_general es (Sun.init w) 0 w eq_refl eq_refl)
    as (st & Hr & Hu & Ho & Hs & Hd & _).
  exists st. repeat split; assumption.
Qed.

(** X4: from startup, after every sequence of resizes and frames of the
    sun script the sizes, the camera and the renderer are those of the
    last resize (of the startup window if there was none), with the field
    of view and the clipping planes as constructed; the log holds one read
    of the clock, one draw call and one re-scheduling per frame. *)
Theorem sun_run_display (w : Window) (es : list Sun.Event) :
  exists st,
    Sun.run es (Sun.init w) = Some st /\
    (Sun.sizes st, Sun.camera st, Sun.renderer st) =
      display_of (Sun.last_window es w) /\
    display_consistent (Sun.sizes st) (Sun.camera st) (Sun.renderer st) /\
    count_effects is_read_elapsed (Sun.log st) = Sun.frames es /\
    count_effects is_render (Sun.log st) = Sun.frames es /\
    count_effects is_request_frame (Sun.log st) = Sun.frames es.
Proof.
  destruct (sun_run_general es (Sun.init w) 0 w eq_refl eq_refl)
    as (st & Hr & _ & _ & _ & _ & Hdisp & C1 & C2 & C3).
  exists st. split; [exact Hr|]. split; [exact Hdisp|].
  split.
  { injection Hdisp as -> -> ->. now repeat split. }
  rewrite C1, C2, C3. now repeat split.
Qed.

Section PyramidRuns.

Import Pyramid.
Local Open Scope string_scope.
Local Open Scope float_scope.

Lemma add_uTime_effect (i : nat) (st : State) (t : float) :
  uTime_of i st = Some t ->
  exists m,
    nth_error (materials st) i = Some m /\
    add_uTime i st =
      Some (mkState
              (JS.set_nth i (mkMaterial (shader m)
                                        (JS.set_value "uTime" (t + 0.01) (uniforms m)))
                         (materials st))
              (rotation st) (sizes st) (camera st) (renderer st)
              (log st ++ [WriteUniform i "uTime"])).
Proof.
  unfold uTime_of, add_uTime.
  destruct (nth_error (materials st) i) as [m|]; simpl; [|discriminate].
  intros Ht. exists m. split; [reflexivity|].
  rewrite Ht. simpl. rewrite assign_value_some by congruence. reflexivity.
Qed.

Lemma add_uTime_none_iff (i : nat) (st : State) :
  add_uTime i st = None <-> uTime_of i st = None.
Proof.
  split.
  - intros H. destruct (uTime_of i st) as [t|] eqn:E; [|reflexivity].
    destruct (add_uTime_effect i st t E) as (m & _ & Hs). congruence.
  - unfold uTime_of, add_uTime.
    destruct (nth_error (materials st) i) as [m|]; simpl; [|reflexivity].
    now intros ->.
Qed.

Lemma uTime_of_add_same (i : nat) (st st' : State) (t : float) :
  uTime_of i st = Some t -> add_uTime i st = Some st' ->
  uTime_of i st' = Some (t + 0.01).
Proof.
  intros Ht Hs. destruct (add_uTime_effect i st t Ht) as (m & Hm & Hs').
  rewrite Hs' in Hs. injection Hs as <-.
  unfold uTime_of in *. cbn [materials].
  rewrite nth_error_set_nth_same by congruence. simpl.
  rewrite Hm in Ht. simpl in Ht.
  apply get_set_same. congruence.
Qed.

Lemma nth_error_add_other (i j : nat) (st st' : State) :
  i <> j -> add_uTime i st = Some st' ->
  nth_error (materials st') j = nth_error (materials st) j.
Proof.
  intros Hne Hs.
  destruct (uTime_of i st) as [t|] eqn:E.
  - destruct (add_uTime_effect i st t E) as (m & _ & Hs').
    rewrite Hs' in Hs. injection Hs as <-. cbn [materials].
    now apply nth_error_set_nth_other.
  - apply add_uTime_none_iff in E. congruence.
Qed.

Lemma add_uTime_frame (i : nat) (st st' : State) :
  add_uTime i st = Some st' ->
  List.length (materials st') = List.length (materials st) /\
  (forall j, option_map shader (nth_error (materials st') j) =
             option_map shader (nth_error (materials st) j)) /\
  rotation st' = rotation st.
Proof.
  intros Hs.
  destruct (uTime_of i st) as [t|] eqn:E.
  - destruct (add_uTime_effect i st t E) as (m & Hm & Hs').
    rewrite Hs' in Hs. injection Hs as <-. cbn [materials rotation].
    split; [apply length_set_nth|]. split; [|reflexivity].
    intros j. destruct (Nat.eq_dec i j) as [<-|Hne].
    + rewrite nth_error_set_nth_same by congruence. now rewrite Hm.
    + now rewrite nth_error_set_nth_other.
  - apply add_uTime_none_iff in E. congruence.
Qed.

End PyramidRuns.

Lemma pyramid_tick_present (st : Pyramid.State) :
  Pyramid.tick st = None ->
  Pyramid.uTime_of 0 st = None \/ Pyramid.uTime_of 3 st = None.
Proof.
  unfold Pyramid.tick.
  destruct (Pyramid.add_uTime 0 st) as [st1|] eqn:E1; simpl.
  - destruct (Pyramid.add_uTime 3 st1) as [st2|] eqn:E2; simpl; [discriminate|].
    intros _. right. apply add_uTime_none_iff in E2.
    unfold Pyramid.uTime_of in *.
    now rewrite (nth_error_add_other 0 3 st st1) in E2 by (auto; lia).
  - intros _. left. now apply add_uTime_none_iff.
Qed.

Lemma pyramid_tick_missing (st : Pyramid.State) :
  Pyramid.uTime_of 0 st = None \/ Pyramid.uTime_of 3 st = None ->
  Pyramid.tick st = None.
Proof.
  unfold Pyramid.tick. intros [H|H].
  - apply add_uTime_none_iff in H. now rewrite H.
  - destruct (Pyramid.add_uTime 0 st) as [st1|] eqn:E1; simpl; [|reflexivity].
    assert (H1 : Pyramid.uTime_of 3 st1 = None).
    { unfold Pyramid.uTime_of in *.
      now rewrite (nth_error_add_other 0 3 st st1) by (auto; lia). }
    apply add_uTime_none_iff in H1. now rewrite H1.
Qed.

(** X5: a frame of the pyramid script throws exactly when [materials[0]]
    or [materials[3]] is missing or has no [uTime] uniform. *)
Theorem pyramid_tick_throws_iff (st : Pyramid.State) :
  Pyramid.tick st = None <->
  Pyramid.uTime_of 0 st = None \/ Pyramid.uTime_of 3 st = None.
Proof.
  split.
  - intros H. destruct (pyramid_tick_present st H) as [H0|H3]; [now left|now right].
  - intros H. apply pyramid_tick_missing. destruct H as [H0|H3]; [now left|now right].
Qed.

(** X6: a frame of the pyramid script on materials whose entries 0 and 3
    have a [uTime] uniform completes; it adds 0.01 to each of the two
    uniforms and to [rotation.y], and leaves alone the other materials, the
    number of materials, every shader, [rotation.x], [rotation.z], the
    sizes, the camera and the renderer. *)
Theorem pyramid_tick_effect (st : Pyramid.State) (t0 t3 : float) :
  Pyramid.uTime_of 0 st = Some t0 ->
  Pyramid.uTime_of 3 st = Some t3 ->
  exists st',
    Pyramid.tick st = Some st' /\
    Pyramid.uTime_of 0 st' = Some (t0 + 0.01)%float /\
    Pyramid.uTime_of 3 st' = Some (t3 + 0.01)%float /\
    (forall j, j <> 0 -> j <> 3 ->
       nth_error (Pyramid.materials st') j = nth_error (Pyramid.materials st) j) /\
    List.length (Pyramid.materials st') = List.length (Pyramid.materials st) /\
    (forall j, option_map Pyramid.shader (nth_error (Pyramid.materials st') j) =
               option_map Pyramid.shader (nth_error (Pyramid.materials st) j)) /\
    Pyramid.rotation st' =
      Pyramid.mkEuler (Pyramid.x (Pyramid.rotation st))
                      (Pyramid.y (Pyramid.rotation st) + 0.01)%float
                      (Pyramid.z (Pyramid.rotation st)) /\
    Pyramid.sizes st' = Pyramid.sizes st /\
    Pyramid.camera st' = Pyramid.camera st /\
    Pyramid.renderer st' = Pyramid.renderer st.
Proof.
  intros H0 H3.
  destruct (Pyramid.add_uTime 0 st) as [st1|] eqn:E1;
    [|apply add_uTime_none_iff in E1; congruence].
  assert (H3' : Pyramid.uTime_of 3 st1 = Some t3).
  { unfold Pyramid.uTime_of in *.
    now rewrite (nth_error_add_other 0 3 st st1) by (auto; lia). }
  destruct (Pyramid.add_uTime 3 st1) as [st2|] eqn:E2;
    [|apply add_uTime_none_iff in E2; congruence].
  destruct (add_uTime_frame _ _ _ E1) as (L1 & S1 & R1).
  destruct (add_uTime_frame _ _ _ E2) as (L2 & S2 & R2).
  destruct (add_uTime_log _ _ _ E1) as (_ & Z1 & C1 & D1).
  destruct (add_uTime_log _ _ _ E2) as (_ & Z2 & C2 & D2).
  eexists. split.
  { unfold Pyramid.tick. rewrite E1. simpl. rewrite E2. simpl. reflexivity. }
  cbn [Pyramid.rotate Pyramid.emit Pyramid.materials Pyramid.rotation Pyramid.sizes
       Pyramid.camera Pyramid.renderer Pyramid.uTime_of].
  split.
  { change (Pyramid.uTime_of 0 st2 = Some (t0 + 0.01)%float).
    unfold Pyramid.uTime_of.
    rewrite (nth_error_add_other 3 0 st1 st2) by (auto; lia).
    apply (uTime_of_add_same 0 st st1 t0 H0 E1). }
  split.
  { apply (uTime_of_add_same 3 st1 st2 t3 H3' E2). }
  split.
  { intros j J0 J3.
    rewrite (nth_error_add_other 3 j st1 st2) by (auto; lia).
    now rewrite (nth_error_add_other 0 j st st1) by (auto; lia). }
  split; [congruence|].
  split; [intros j; now rewrite S2, S1|].
  rewrite R2, R1, Z2, Z1, C2, C1, D2, D1. repeat split.
Qed.

Lemma pyramid_tick_effect_witness :
  exists st',
    Pyramid.tick (Pyramid.init window0) = Some st' /\
    Pyramid.uTime_of 0 st' = Some (0 + 0.01)%float /\
    Pyramid.uTime_of 3 st' = Some (0 + 0.01)%float.
Proof.
  destruct (pyramid_tick_effect (Pyramid.init window0) 0 0 eq_refl eq_refl)
    as (st' & Ht & H0 & H3 & _).
  exists st'. repeat split; assumption.
Defined.

Section PyramidEvents.

Import Pyramid.
Local Open Scope float_scope.

Lemma advance_frame (n : nat) (t : float) : advance (S n) t = advance n (t + 0.01).
Proof. now rewrite advance_succ. Qed.

Lemma pyramid_run_general (es : list Event) :
  forall (st : State) (t0 t3 : float) (w : Window),
    materials st = materials_at t0 t3 ->
    (sizes st, camera st, renderer st) = display_of w ->
    exists st',
      run es st = Some st' /\
      materials st' = materials_at (advance (frames es) t0) (advance (frames es) t3) /\
      rotation st' =
        mkEuler (x (rotation st)) (advance (frames es) (y (rotation st)))
                (z (rotation st)) /\
      (sizes st', camera st', renderer st') = display_of (last_window es w) /\
      count_effects is_render (log st') =
        (count_effects is_render (log st) + frames es)%nat /\
      count_effects is_request_frame (log st') =
        (count_effects is_request_frame (log st) + frames es)%nat /\
      count_effects is_read_elapsed (log st') = count_effects is_read_elapsed (log st).
Proof.
  induction es as [|e es IH]; intros st t0 t3 w Hm Hd.
  - exists st. cbn [run last_window frames filter List.length advance Nat.iter].
    rewrite !Nat.add_0_r. destruct st as [ms [rx ry rz] sz cam rdr lg].
    repeat split; auto.
  - destruct e as [w'|].
    + cbn [run step JS.bind last_window].
      destruct (IH (resize w' st) t0 t3 w' Hm) as (st' & Hr & Hms & Hrot & Hdisp & C1 & C2 & C3).
      { unfold resize, display_of; cbn.
        injection Hd as _ Hc _. rewrite Hc. reflexivity. }
      exists st'. split; [exact Hr|].
      unfold frames in *. cbn [filter].
      split; [exact Hms|]. split; [exact Hrot|]. split; [exact Hdisp|].
      rewrite C1, C2, C3. unfold resize; cbn [log].
      rewrite !count_effects_app. cbn. rewrite !Nat.add_0_r. auto.
    + cbn [run step JS.bind last_window].
      rewrite (tick_materials_at st t0 t3 Hm). cbn [JS.bind].
      match goal with
      | |- context [run es ?s] =>
          destruct (IH s (t0 + 0.01) (t3 + 0.01) w eq_refl Hd)
            as (st' & Hr & Hms & Hrot & Hdisp & C1 & C2 & C3)
      end.
      exists st'. split; [exact Hr|].
      replace (frames (Frame :: es)) with (S (frames es)) by reflexivity.
      rewrite !advance_frame.
      split; [exact Hms|]. split; [exact Hrot|]. split; [exact Hdisp|].
      rewrite C1, C2, C3. cbn [log].
      rewrite !count_effects_app. cbn. lia.
Qed.

End PyramidEvents.

(** X7: from startup, every sequence of resizes and frames of the pyramid
    script completes; afterwards the [uTime] uniforms of [materials[0]] and
    [materials[3]] and [rotation.y] all hold the same number, the sum of
    as many additions of 0.01 to 0 as there were frames, whatever resizes
    came in between; [rotation.x] and [rotation.z] are 0, there are four
    materials and [materials[1]] and [materials[2]] have no [uTime]. *)
Theorem pyramid_run_clock (w : Window) (es : list Pyramid.Event) :
  exists st,
    Pyramid.run es (Pyramid.init w) = Some st /\
    Pyramid.uTime_of 0 st = Some (Pyramid.advance (Pyramid.frames es) 0) /\
    Pyramid.uTime_of 3 st = Some (Pyramid.advance (Pyramid.frames es) 0) /\
    Pyramid.rotation st =
      Pyramid.mkEuler 0 (Pyramid.advance (Pyramid.frames es) 0) 0 /\
    Pyramid.uTime_of 1 st = None /\
    Pyramid.uTime_of 2 st = None /\
    List.length (Pyramid.materials st) = 4.
Proof.
  destruct (pyramid_run_general es (Pyramid.init w) 0 0 w eq_refl eq_refl)
    as (st & Hr & Hms & Hrot & _).
  exists st. split; [exact Hr|].
  unfold Pyramid.uTime_of. rewrite Hms, Hrot. repeat split.
Qed.

(** X8: from startup, after every sequence of resizes and frames of the
    pyramid script the sizes, the camera and the renderer are those of the
    last resize (of the startup window if there was none); the log holds
    one draw call and one re-scheduling per frame and no read of a
    clock. *)
Theorem pyramid_run_display (w : Window) (es : list Pyramid.Event) :
  exists st,
    Pyramid.run es (Pyramid.init w) = Some st /\
    (Pyramid.sizes st, Pyramid.camera st, Pyramid.renderer st) =
      display_of (Pyramid.last_window es w) /\
    display_consistent (Pyramid.sizes st) (Pyramid.camera st) (Pyramid.renderer st) /\
    count_effects is_render (Pyramid.log st) = Pyramid.frames es /\
    count_effects is_request_frame (Pyramid.log st) = Pyramid.frames es /\
    count_effects is_read_elapsed (Pyramid.log st) = 0.
Proof.
  destruct (pyramid_run_general es (Pyramid.init w) 0 0 w eq_refl eq_refl)
    as (st & Hr & _ & _ & Hdisp & C1 & C2 & C3).
  exists st. split; [exact Hr|]. split; [exact Hdisp|].
  split.
  { injection Hdisp as -> -> ->. now repeat split. }
  rewrite C1, C2, C3. now repeat split.
Qed.

(** X9: in both scripts a resize and a frame can be handled in either
    order: the two orders agree on whether the frame throws and, when it
    does not, on the uniforms, the materials, the rotation, the sizes, the
    camera and the renderer. *)
Theorem resize_commutes_with_tick (w : Window) (t : float)
    (ss : Sun.State) (ps : Pyramid.State) :
  let sun_view (st : Sun.State) :=
    (Sun.uniforms st, Sun.uSurfaceColor st, Sun.uDepthColor st,
     Sun.sizes st, Sun.camera st, Sun.renderer st) in
  let pyramid_view (st : Pyramid.State) :=
    (Pyramid.materials st, Pyramid.rotation st,
     Pyramid.sizes st, Pyramid.camera st, Pyramid.renderer st) in
  option_map sun_view (Sun.tick t (Sun.resize w ss)) =
    option_map sun_view (option_map (Sun.resize w) (Sun.tick t ss)) /\
  option_map pyramid_view (Pyramid.tick (Pyramid.resize w ps)) =
    option_map pyramid_view (option_map (Pyramid.resize w) (Pyramid.tick ps)).
Proof.
  intros sun_view pyramid_view. split.
  - destruct (JS.get_value "uTime" (Sun.uniforms ss)) as [t0|] eqn:E.
    + rewrite !sun_tick_effect by (cbn [Sun.resize Sun.uniforms]; congruence).
      reflexivity.
    + rewrite (sun_tick_missing t ss E).
      now rewrite (sun_tick_missing t (Sun.resize w ss) E).
  - destruct (Pyramid.tick ps) as [ps'|] eqn:E.
    + destruct (Pyramid.uTime_of 0 ps) as [t0|] eqn:E0;
        [|rewrite (pyramid_tick_missing ps) in E by auto; discriminate].
      destruct (Pyramid.uTime_of 3 ps) as [t3|] eqn:E3;
        [|rewrite (pyramid_tick_missing ps) in E by auto; discriminate].
      revert E. unfold Pyramid.tick.
      destruct (add_uTime_effect 0 ps t0 E0) as (m0 & Hm0 & ->).
      destruct (add_uTime_effect 0 (Pyramid.resize w ps) t0 E0) as (m0' & Hm0' & ->).
      cbn [Pyramid.resize Pyramid.materials] in Hm0'.
      assert (m0' = m0) by congruence. subst m0'.
      cbn [JS.bind].
      match goal with
      | |- context [Pyramid.add_uTime 3 ?s] =>
          assert (H3 : Pyramid.uTime_of 3 s = Some t3)
      end.
      { unfold Pyramid.uTime_of in *. cbn [Pyramid.materials].
        now rewrite nth_error_set_nth_other by lia. }
      destruct (add_uTime_effect 3 _ _ H3) as (m3 & Hm3 & ->).
      match goal with
      | |- context [Pyramid.add_uTime 3 ?s] =>
          lazymatch s with
          | context [Pyramid.resize] =>
              destruct (add_uTime_effect 3 s t3 H3) as (m3' & Hm3' & ->)
          end
      end.
      cbn [Pyramid.resize Pyramid.materials] in Hm3, Hm3'.
      assert (m3' = m3) by congruence. subst m3'.
      cbn [JS.bind]. intros [= <-]. reflexivity.
    + apply pyramid_tick_present in E.
      now rewrite (pyramid_tick_missing (Pyramid.resize w ps) E).
Qed.

(** ** The pixel ratio and binary64 comparisons *)

Section Binary64.

Local Open Scope float_scope.

Lemma ltb_leb (a b : float) : (a <? b) = true -> (a <=? b) = true.
Proof.
  rewrite ltb_spec, leb_spec. unfold SFltb, SFleb.
  destruct (SFcompare (Prim2SF a) (Prim2SF b)) as [[]|]; auto; discriminate.
Qed.

Lemma is_zero_leb_2 (a : float) : PrimFloat.is_zero a = true -> (a <=? 2) = true.
Proof.
  unfold PrimFloat.is_zero. rewrite FloatAxioms.eqb_spec, leb_spec.
  unfold SFeqb, SFleb.
  change (Prim2SF zero) with (S754_zero false).
  destruct (Prim2SF a) as [s|s| |s m e]; simpl; try discriminate.
  - reflexivity.
  - destruct s; discriminate.
  - destruct s; discriminate.
Qed.

Lemma ltb_not_nan_l (a b : float) : (a <? b) = true -> PrimFloat.is_nan a = false.
Proof.
  unfold PrimFloat.is_nan. rewrite ltb_spec, FloatAxioms.eqb_spec.
  unfold SFltb, SFeqb.
  destruct (Prim2SF a) as [s|s| |s m e]; simpl; try discriminate; intros _.
  - reflexivity.
  - now destruct s.
  - destruct s; rewrite Z.compare_refl, Pos.compare_cont_refl; reflexivity.
Qed.

(** [<] on binary64 numbers is asymmetric. *)
Lemma ltb_asym (a b : float) : (a <? b) = true -> (b <? a) = false.
Proof.
  rewrite !ltb_spec. unfold SFltb.
  destruct (Prim2SF a) as [s|s| |s m e], (Prim2SF b) as [s'|s'| |s' m' e']; simpl;
    try discriminate; try reflexivity;
    try (destruct s; simpl; try discriminate; reflexivity);
    try (destruct s'; simpl; try discriminate; reflexivity);
    try (destruct s, s'; simpl; try discriminate; reflexivity).
  destruct s, s'; simpl; try discriminate; try reflexivity;
    rewrite (Z.compare_antisym e e');
    destruct (Z.compare e e'); simpl; try discriminate; try reflexivity;
    (assert (H : Pos.compare_cont Eq m' m = CompOpp (Pos.compare_cont Eq m m'))
       by (rewrite Pos.compare_cont_antisym; reflexivity));
    rewrite H;
    destruct (Pos.compare_cont Eq m m'); simpl; try discriminate; reflexivity.
Qed.

Lemma Math_min_2_cap (a : float) :
  PrimFloat.is_nan a = false -> (JS.Math_min a 2 <=? 2) = true.
Proof.
  intros Hn. unfold JS.Math_min. rewrite Hn.
  change (PrimFloat.is_nan 2) with false. simpl orb. cbv iota.
  destruct (a <? 2) eqn:L1; [now apply ltb_leb|].
  destruct (2 <? a) eqn:L2; [reflexivity|].
  destruct (PrimFloat.is_zero a) eqn:Z; simpl andb; cbv iota; [|reflexivity].
  destruct (PrimFloat.get_sign a); [|reflexivity].
  now apply is_zero_leb_2.
Qed.

Lemma Math_min_2_below (a : float) : (a <? 2) = true -> JS.Math_min a 2 = a.
Proof.
  intros L. unfold JS.Math_min. now rewrite (ltb_not_nan_l _ _ L), L.
Qed.

Lemma Math_min_2_above (a : float) : (2 <? a) = true -> JS.Math_min a 2 = 2.
Proof.
  intros L. unfold JS.Math_min.
  assert (Hn : PrimFloat.is_nan a = false).
  { revert L. unfold PrimFloat.is_nan. rewrite ltb_spec, FloatAxioms.eqb_spec.
    unfold SFltb, SFeqb.
    destruct (Prim2SF 2) eqn:E2; try (vm_compute in E2; discriminate).
    destruct (Prim2SF a) as [s'|s'| |s' m' e']; simpl; try discriminate; intros _.
    - reflexivity.
    - now destruct s'.
    - destruct s'; rewrite Z.compare_refl, Pos.compare_cont_refl; reflexivity. }
  now rewrite Hn, (ltb_asym _ _ L), L.
Qed.

End Binary64.

(** X10: in both scripts, at startup and after a resize, if
    [window.devicePixelRatio] is a number then the pixel ratio given to the
    renderer is at most 2; it is [devicePixelRatio] itself when that is
    below 2, and 2 when that is above 2. *)
Theorem pixel_ratio_capped (w : Window) (ss : Sun.State) (ps : Pyramid.State) :
  PrimFloat.is_nan (devicePixelRatio w) = false ->
  let r := JS.Math_min (devicePixelRatio w) 2 in
  pixelRatio (Sun.renderer (Sun.init w)) = r /\
  pixelRatio (Sun.renderer (Sun.resize w ss)) = r /\
  pixelRatio (Pyramid.renderer (Pyramid.init w)) = r /\
  pixelRatio (Pyramid.renderer (Pyramid.resize w ps)) = r /\
  (r <=? 2)%float = true /\
  ((devicePixelRatio w <? 2)%float = true -> r = devicePixelRatio w) /\
  ((2 <? devicePixelRatio w)%float = true -> r = 2%float).
Proof.
  intros Hn r. repeat split.
  - now apply Math_min_2_cap.
  - apply Math_min_2_below.
  - apply Math_min_2_above.
Qed.

Lemma pixel_ratio_capped_witness :
  pixelRatio (Sun.renderer (Sun.resize (mkWindow 800 600 3) (Sun.init window0))) =
    JS.Math_min 3 2 /\
  (JS.Math_min 3 2 <=? 2)%float = true.
Proof.
  destruct (pixel_ratio_capped (mkWindow 800 600 3) (Sun.init window0)
              (Pyramid.init window0) eq_refl)
    as (_ & H & _ & _ & Hc & _).
  split; [exact H | exact Hc].
Defined.

(** X11: every numeric control of the sun's debug panel is bound to a
    scalar uniform other than [uTime] and declares a range with
    [min < max]; from startup, after every sequence of resizes and frames,
    the uniform it is bound to still holds a value inside that range. *)
Theorem controls_stay_in_range (c : Sun.Control) (w : Window) (es : list Sun.Event) :
  In c Sun.controls ->
  Sun.target c <> "uTime"%string /\
  (Sun.cmin c <? Sun.cmax c)%float = true /\
  Sun.in_range c Sun.initial_uniforms = true /\
  exists st,
    Sun.run es (Sun.init w) = Some st /\
    Sun.in_range c (Sun.uniforms st) = true.
Proof.
  intros Hin.
  assert (H : Sun.target c <> "uTime"%string /\
              (Sun.cmin c <? Sun.cmax c)%float = true /\
              Sun.in_range c Sun.initial_uniforms = true).
  { simpl in Hin.
    destruct Hin as [<-|[<-|[<-|[<-|[<-|[]]]]]];
      (split; [discriminate | split; vm_compute; reflexivity]). }
  destruct H as (Ht & Hr & Hi).
  split; [exact Ht|]. split; [exact Hr|]. split; [exact Hi|].
  destruct (sun_run_general es (Sun.init w) 0 w eq_refl eq_refl)
    as (st & Hrun & _ & Ho & _).
  exists st. split; [exact Hrun|].
  unfold Sun.in_range in *. now rewrite (Ho _ Ht).
Qed.

Lemma controls_stay_in_range_witness :
  exists st,
    Sun.run [Sun.Frame 1; Sun.Resize window0; Sun.Frame 2] (Sun.init window0) = Some st /\
    Sun.in_range (Sun.mkControl "uWaveHeight" 0.05 0.5 0.01 "Wave Height")
                 (Sun.uniforms st) = true.
Proof.
  destruct (controls_stay_in_range
              (Sun.mkControl "uWaveHeight" 0.05 0.5 0.01 "Wave Height") window0
              [Sun.Frame 1; Sun.Resize window0; Sun.Frame 2])
    as (_ & _ & _ & H).
  - simpl. auto.
  - exact H.
Defined.

(** ** More on the shaders *)

Section MoreTrigonometry.

Local Open Scope R_scope.

Lemma sin_period_nat (x : R) (n : nat) : sin (x + 2 * PI * INR n) = sin x.
Proof.
  replace (x + 2 * PI * INR n) with (x + 2 * INR n * PI) by ring.
  apply sin_period.
Qed.

(** [sin] has every integer multiple of [2 * PI] as a period. *)
Lemma sin_period_Z (x : R) (k : Z) : sin (x + 2 * PI * IZR k) = sin x.
Proof.
  assert (P : forall p : positive, IZR (Z.pos p) = INR (Pos.to_nat p))
    by (intros p; now rewrite INR_IZR_INZ, positive_nat_Z).
  destruct k as [|p|p].
  - f_equal. ring.
  - rewrite (P p). apply sin_period_nat.
  - rewrite <- (sin_period_nat (x + 2 * PI * IZR (Z.neg p)) (Pos.to_nat p)).
    f_equal.
    change (Z.neg p) with (- Z.pos p)%Z.
    rewrite opp_IZR, (P p). ring.
Qed.

Lemma Rabs_sin_scaled (x c : R) : 0 <= c -> Rabs (sin x * c) <= c.
Proof.
  intros Hc. rewrite Rabs_mult, (Rabs_pos_eq c) by exact Hc.
  pose proof (Rabs_sin_le_1 x). pose proof (Rabs_pos (sin x)). nra.
Qed.

End MoreTrigonometry.

(** X12: the sun fragment shader ignores the horizontal texture
    coordinate and always writes alpha 1; at [v = 0] it writes the surface
    colour times the multiplier and at [v = 1] the depth colour times the
    multiplier; for [v] in [0, 1] and a non-negative multiplier every
    channel lies between those two. *)
Theorem sun_fragment_between (u : SunShader.Uniforms) (s v : R) :
  (0 <= v <= 1)%R ->
  (0 <= SunShader.uColorMultiplier u)%R ->
  let m := SunShader.uColorMultiplier u in
  let a := GLSL.scale3 (SunShader.uSurfaceColor u) m in
  let b := GLSL.scale3 (SunShader.uDepthColor u) m in
  let c := SunShader.fragmentShader u (GLSL.mkVec2 s v) in
  SunShader.fragmentShader u (GLSL.mkVec2 s 0) = GLSL.vec4_of a 1 /\
  SunShader.fragmentShader u (GLSL.mkVec2 s 1) = GLSL.vec4_of b 1 /\
  c = SunShader.fragmentShader u (GLSL.mkVec2 0 v) /\
  GLSL.w4 c = 1%R /\
  (Rmin (GLSL.x3 a) (GLSL.x3 b) <= GLSL.x4 c <= Rmax (GLSL.x3 a) (GLSL.x3 b))%R /\
  (Rmin (GLSL.y3 a) (GLSL.y3 b) <= GLSL.y4 c <= Rmax (GLSL.y3 a) (GLSL.y3 b))%R /\
  (Rmin (GLSL.z3 a) (GLSL.z3 b) <= GLSL.z4 c <= Rmax (GLSL.z3 a) (GLSL.z3 b))%R.
Proof.
  intros Hv Hm m a b c.
  assert (between : forall p q : R,
             (Rmin (p * m) (q * m) <= GLSL.mix p q v * m <= Rmax (p * m) (q * m))%R).
  { intros p q. unfold GLSL.mix, Rmin, Rmax.
    destruct (Rle_dec (p * m) (q * m)); nra. }
  split.
  { unfold a, b, m, SunShader.fragmentShader, GLSL.mix3, GLSL.mix, GLSL.scale3,
      GLSL.vec4_of; simpl. f_equal; ring. }
  split.
  { unfold a, b, m, SunShader.fragmentShader, GLSL.mix3, GLSL.mix, GLSL.scale3,
      GLSL.vec4_of; simpl. f_equal; ring. }
  split; [reflexivity|]. split; [reflexivity|].
  repeat split; apply between.
Qed.

Lemma sun_fragment_between_witness :
  let c := SunShader.fragmentShader SunShader.default_uniforms (GLSL.mkVec2 0.25 0.5) in
  (Rmin (1 * 1) (1 * 1) <= GLSL.x4 c <= Rmax (1 * 1) (1 * 1))%R /\
  (Rmin (0.5 * 1) (0 * 1) <= GLSL.y4 c <= Rmax (0.5 * 1) (0 * 1))%R.
Proof.
  destruct (sun_fragment_between SunShader.default_uniforms 0.25 0.5)
    as (_ & _ & _ & _ & Hx & Hy & _).
  - lra.
  - simpl. lra.
  - split; [exact Hx | exact Hy].
Defined.

(** X13: for every setting of the "Wave Height" control (0.05 to 0.5) the
    sun displacement is at most 0.04 in magnitude, and a vertex of the unit
    sphere whose normal is its own position is moved to a point at
    distance between 0.96 and 1.04 from the centre. *)
Theorem sun_surface_stays_close (u : SunShader.Uniforms) (a : GLSL.Attributes) :
  (0.05 <= SunShader.uWaveHeight u <= 0.5)%R ->
  GLSL.normal a = GLSL.position a ->
  GLSL.length3 (GLSL.position a) = 1%R ->
  (Rabs (SunShader.displacement u (GLSL.position a)) <= 0.04)%R /\
  (0.96 <= GLSL.length3 (SunShader.newPosition u a) <= 1.04)%R.
Proof.
  intros Hh Hn Hl.
  assert (Hd : (Rabs (SunShader.displacement u (GLSL.position a)) <= 0.04)%R).
  { pose proof (displacement_bound u (GLSL.position a)) as B.
    rewrite (Rabs_pos_eq (SunShader.uWaveHeight u)) in B by lra. lra. }
  split; [exact Hd|].
  set (d := SunShader.displacement u (GLSL.position a)) in *.
  assert (E : SunShader.newPosition u a = GLSL.scale3 (GLSL.position a) (1 + d)).
  { unfold SunShader.newPosition. rewrite Hn. fold d.
    unfold GLSL.add3, GLSL.scale3; simpl. f_equal; ring. }
  rewrite E, length3_scale3, Hl.
  assert (Hb : (-0.04 <= d <= 0.04)%R)
    by (unfold Rabs in Hd; destruct (Rcase_abs d); lra).
  rewrite Rabs_pos_eq by lra. lra.
Qed.

Lemma sun_surface_stays_close_witness :
  (Rabs (SunShader.displacement SunShader.default_uniforms (GLSL.position north_pole))
     <= 0.04)%R /\
  (0.96 <= GLSL.length3 (SunShader.newPosition SunShader.default_uniforms north_pole)
     <= 1.04)%R.
Proof.
  apply (sun_surface_stays_close SunShader.default_uniforms north_pole).
  - simpl. lra.
  - reflexivity.
  - unfold GLSL.length3, north_pole; simpl.
    replace (0 * 0 + 1 * 1 + 0 * 0)%R with 1%R by ring. apply sqrt_1.
Defined.

(** X14: when [uSmallWaveSpeed] is an integer multiple of a non-zero
    [uWaveSpeed], as with the constructed speeds 1 and 2, the whole sun
    displacement at a vertex, and with it the displaced position, repeats
    in time with period [2 * PI / uWaveSpeed]. *)
Theorem sun_displacement_common_period
    (u : SunShader.Uniforms) (a : GLSL.Attributes) (k : Z) (t : R) :
  SunShader.uWaveSpeed u <> 0%R ->
  SunShader.uSmallWaveSpeed u = (IZR k * SunShader.uWaveSpeed u)%R ->
  let t' := (t + 2 * PI / SunShader.uWaveSpeed u)%R in
  SunShader.displacement (SunShader.with_time u t') (GLSL.position a) =
    SunShader.displacement (SunShader.with_time u t) (GLSL.position a) /\
  SunShader.newPosition (SunShader.with_time u t') a =
    SunShader.newPosition (SunShader.with_time u t) a.
Proof.
  intros Hw Hk t'.
  assert (E : SunShader.displacement (SunShader.with_time u t') (GLSL.position a) =
              SunShader.displacement (SunShader.with_time u t) (GLSL.position a)).
  { unfold SunShader.displacement, SunShader.wave, SunShader.smallWave,
      SunShader.with_time, t'; simpl. rewrite Hk.
    f_equal. f_equal.
    - f_equal.
      rewrite <- (sin_period_Z (_ + t * _) 1). f_equal. field. exact Hw.
    - f_equal.
      rewrite <- (sin_period_Z (_ + t * _) k). f_equal. field. exact Hw. }
  split; [exact E|].
  unfold SunShader.newPosition. simpl. now rewrite E.
Qed.

Lemma sun_displacement_common_period_witness :
  SunShader.displacement (SunShader.with_time SunShader.default_uniforms (0 + 2 * PI / 1))
                         (GLSL.position north_pole) =
  SunShader.displacement (SunShader.with_time SunShader.default_uniforms 0)
                         (GLSL.position north_pole).
Proof.
  refine (proj1 (sun_displacement_common_period SunShader.default_uniforms north_pole
                   2 0 _ _)).
  - simpl. lra.
  - simpl. lra.
Defined.

Section PyramidFaces.

Import GLSL PyramidShader.
Local Open Scope R_scope.

Lemma Zfloor_shift_two_cells (u : R) : Zfloor ((u + 0.2) * 10) = (Zfloor (u * 10) + 2)%Z.
Proof.
  replace ((u + 0.2) * 10) with (u * 10 + IZR 2) by lra.
  apply Zfloor_addz.
Qed.

Lemma parity_values (k : Z) : (k mod 2 = 0 \/ k mod 2 = 1)%Z.
Proof. pose proof (Z.mod_pos_bound k 2 ltac:(lia)). lia. Qed.

Lemma fragmentShader2_of_checker (vUv : vec2) :
  fragmentShader2 vUv =
  mkVec4 (1 - checker vUv) (1 - checker vUv) (1 - checker vUv) 1.
Proof.
  unfold fragmentShader2, mix3, mix, vec3_of, vec4_of; simpl. f_equal; ring.
Qed.

(** The distance to the centre of the texture is unchanged by the point
    reflection through the centre and by the exchange of the two
    coordinates. *)
Lemma dist_reflect (u v : R) : dist (mkVec2 (1 - u) (1 - v)) = dist (mkVec2 u v).
Proof. unfold dist, length2, sub2; simpl. apply (f_equal R_sqrt.sqrt). nra. Qed.

Lemma dist_swap (u v : R) : dist (mkVec2 v u) = dist (mkVec2 u v).
Proof. unfold dist, length2, sub2; simpl. apply (f_equal R_sqrt.sqrt). nra. Qed.

Lemma dist_unit_square (u v : R) :
  0 <= u <= 1 -> 0 <= v <= 1 ->
  0 <= dist (mkVec2 u v) <= R_sqrt.sqrt (1 / 2) /\ R_sqrt.sqrt (1 / 2) <= 1.
Proof.
  intros Hu Hv. unfold dist, length2, sub2; simpl. split; [split|].
  - apply sqrt_pos.
  - apply sqrt_le_1_alt. nra.
  - rewrite <- sqrt_1 at 2. apply sqrt_le_1_alt. lra.
Qed.

End PyramidFaces.

(** X15: the wave face moves a vertex only along z, by
    [0.2 * (sin (5 x + uTime) + sin (5 y + uTime))], at most 0.4 in
    magnitude; the offset is the same after exchanging x and y, and the
    displaced position repeats in [uTime] with period [2 * PI]. *)
Theorem waves_vertex (t : R) (m : GLSL.Matrices) (a : GLSL.Attributes) :
  let p := GLSL.position a in
  let q := PyramidShader.newPosition1 t p in
  GLSL.x3 q = GLSL.x3 p /\
  GLSL.y3 q = GLSL.y3 p /\
  (GLSL.z3 q - GLSL.z3 p =
     0.2 * (sin (5 * GLSL.x3 p + t) + sin (5 * GLSL.y3 p + t)))%R /\
  (Rabs (GLSL.z3 q - GLSL.z3 p) <= 0.4)%R /\
  (GLSL.z3 (PyramidShader.newPosition1 t
              (GLSL.mkVec3 (GLSL.y3 p) (GLSL.x3 p) (GLSL.z3 p))) = GLSL.z3 q)%R /\
  PyramidShader.newPosition1 (t + 2 * PI) p = q /\
  GLSL.gl_Position (PyramidShader.vertexShader1 t m a) = GLSL.project m q /\
  GLSL.vUv (PyramidShader.vertexShader1 t m a) = GLSL.uv a.
Proof.
  intros p q. unfold q, PyramidShader.newPosition1; simpl.
  split; [reflexivity|]. split; [reflexivity|].
  split.
  { replace (5 * GLSL.x3 p + t)%R with (GLSL.x3 p * 5 + t)%R by ring.
    replace (5 * GLSL.y3 p + t)%R with (GLSL.y3 p * 5 + t)%R by ring. ring. }
  split.
  { pose proof (SIN_bound (GLSL.x3 p * 5 + t)).
    pose proof (SIN_bound (GLSL.y3 p * 5 + t)).
    apply Rabs_le. lra. }
  split; [ring|].
  split; [|split; reflexivity].
  f_equal.
  replace (GLSL.x3 p * 5 + (t + 2 * PI))%R with (GLSL.x3 p * 5 + t + 2 * PI)%R by ring.
  replace (GLSL.y3 p * 5 + (t + 2 * PI))%R with (GLSL.y3 p * 5 + t + 2 * PI)%R by ring.
  now rewrite !sin_shift_period.
Qed.

(** X16: at every texture coordinate the checkerboard face writes opaque
    white, when the parity value is 0, or opaque black, when it is 1, and
    nothing else. *)
Theorem checkerboard_white_or_black (vUv : GLSL.vec2) :
  (PyramidShader.checker vUv = 0%R /\
   PyramidShader.fragmentShader2 vUv = GLSL.mkVec4 1 1 1 1) \/
  (PyramidShader.checker vUv = 1%R /\
   PyramidShader.fragmentShader2 vUv = GLSL.mkVec4 0 0 0 1).
Proof.
  rewrite fragmentShader2_of_checker, checker_parity.
  destruct (parity_values (Zfloor (GLSL.x2 vUv * 10) + Zfloor (GLSL.y2 vUv * 10)))
    as [-> | ->]; [left | right]; (split; [reflexivity|]); f_equal; ring.
Qed.

(** X17: inside the cell of column [i] and row [j] of the ten-by-ten grid
    (u in [i/10, (i+1)/10), v in [j/10, (j+1)/10)) the checkerboard value
    is the parity of [i + j]: the cell is white when [i + j] is even and
    black when it is odd. *)
Theorem checkerboard_cell (i j : Z) (u v : R) :
  (IZR i / 10 <= u < (IZR i + 1) / 10)%R ->
  (IZR j / 10 <= v < (IZR j + 1) / 10)%R ->
  PyramidShader.checker (GLSL.mkVec2 u v) = IZR ((i + j) mod 2) /\
  PyramidShader.fragmentShader2 (GLSL.mkVec2 u v) =
    (if Z.even (i + j) then GLSL.mkVec4 1 1 1 1 else GLSL.mkVec4 0 0 0 1).
Proof.
  intros Hu Hv.
  assert (Fu : Zfloor (u * 10) = i) by (apply Zfloor_eq; lra).
  assert (Fv : Zfloor (v * 10) = j) by (apply Zfloor_eq; lra).
  assert (E : PyramidShader.checker (GLSL.mkVec2 u v) = IZR ((i + j) mod 2)).
  { rewrite checker_parity. simpl. now rewrite Fu, Fv. }
  split; [exact E|].
  rewrite fragmentShader2_of_checker, E, Zeven_mod.
  destruct (parity_values (i + j)) as [-> | ->]; simpl; f_equal; ring.
Qed.

Lemma checkerboard_cell_witness :
  PyramidShader.checker (GLSL.mkVec2 0.35 0.45) = IZR ((3 + 4) mod 2) /\
  PyramidShader.fragmentShader2 (GLSL.mkVec2 0.35 0.45) =
    (if Z.even (3 + 4) then GLSL.mkVec4 1 1 1 1 else GLSL.mkVec4 0 0 0 1).
Proof. apply (checkerboard_cell 3 4 0.35 0.45); lra. Defined.

(** X18: the checkerboard value is unchanged by a shift of 0.2 (two cells)
    in either coordinate, by the diagonal shift of 0.1 in both, and by the
    exchange of the two coordinates; a shift of 0.1 in v flips it. *)
Theorem checkerboard_symmetries (u v : R) :
  PyramidShader.checker (GLSL.mkVec2 (u + 0.2) v) = PyramidShader.checker (GLSL.mkVec2 u v) /\
  PyramidShader.checker (GLSL.mkVec2 u (v + 0.2)) = PyramidShader.checker (GLSL.mkVec2 u v) /\
  PyramidShader.checker (GLSL.mkVec2 (u + 0.1) (v + 0.1)) =
    PyramidShader.checker (GLSL.mkVec2 u v) /\
  PyramidShader.checker (GLSL.mkVec2 v u) = PyramidShader.checker (GLSL.mkVec2 u v) /\
  PyramidShader.checker (GLSL.mkVec2 u (v + 0.1)) =
    (1 - PyramidShader.checker (GLSL.mkVec2 u v))%R.
Proof.
  rewrite !checker_parity. simpl.
  rewrite !Zfloor_shift_two_cells, !Zfloor_shift_cell.
  set (a := Zfloor (u * 10)). set (b := Zfloor (v * 10)).
  assert (M : forall k : Z, ((k + 2) mod 2 = k mod 2)%Z).
  { intros k. replace (k + 2)%Z with (k + 1 * 2)%Z by lia. apply Z.mod_add. lia. }
  assert (F : forall k : Z, ((k + 1) mod 2 = 1 - k mod 2)%Z).
  { intros k.
    pose proof (Z.div_mod k 2 ltac:(lia)).
    pose proof (Z.div_mod (k + 1) 2 ltac:(lia)).
    pose proof (Z.mod_pos_bound k 2 ltac:(lia)).
    pose proof (Z.mod_pos_bound (k + 1) 2 ltac:(lia)). lia. }
  split; [f_equal; rewrite <- (M (a + b)%Z); f_equal; lia|].
  split; [f_equal; rewrite <- (M (a + b)%Z); f_equal; lia|].
  split; [f_equal; rewrite <- (M (a + b)%Z); f_equal; lia|].
  split; [f_equal; f_equal; lia|].
  rewrite <- minus_IZR. f_equal. rewrite <- (F (a + b)%Z). f_equal. lia.
Qed.

(** X19: on the unit square of texture coordinates the distance used by
    the radial-gradient face is at most [sqrt (1/2)], so its red and green
    channels stay within [0, 1]; the centre (0.5, 0.5) is pure red, and the
    colour is the same at the point reflected through the centre and at
    the point with the two coordinates exchanged. *)
Theorem radial_gradient_range (u v : R) :
  (0 <= u <= 1)%R -> (0 <= v <= 1)%R ->
  let c := PyramidShader.fragmentShader3 (GLSL.mkVec2 u v) in
  (0 <= PyramidShader.dist (GLSL.mkVec2 u v) <= R_sqrt.sqrt (1 / 2))%R /\
  (0 <= GLSL.x4 c <= 1)%R /\
  (0 <= GLSL.y4 c <= 1)%R /\
  PyramidShader.fragmentShader3 (GLSL.mkVec2 0.5 0.5) = GLSL.mkVec4 1 0 0 1 /\
  PyramidShader.fragmentShader3 (GLSL.mkVec2 (1 - u) (1 - v)) = c /\
  PyramidShader.fragmentShader3 (GLSL.mkVec2 v u) = c.
Proof.
  intros Hu Hv c.
  destruct (dist_unit_square u v Hu Hv) as [Hd H1].
  split; [exact Hd|].
  unfold c, PyramidShader.fragmentShader3; simpl.
  split; [lra|]. split; [lra|].
  split.
  { assert (E : PyramidShader.dist (GLSL.mkVec2 0.5 0.5) = 0%R).
    { unfold PyramidShader.dist, GLSL.length2, GLSL.sub2; simpl.
      replace ((0.5 - 0.5) * (0.5 - 0.5) + (0.5 - 0.5) * (0.5 - 0.5))%R with 0%R by lra.
      apply sqrt_0. }
    rewrite E. unfold GLSL.vec4_of; simpl. f_equal; ring. }
  split.
  - now rewrite dist_reflect.
  - now rewrite dist_swap.
Qed.

Lemma radial_gradient_range_witness :
  (0 <= GLSL.x4 (PyramidShader.fragmentShader3 (GLSL.mkVec2 1 0)) <= 1)%R /\
  (0 <= GLSL.y4 (PyramidShader.fragmentShader3 (GLSL.mkVec2 1 0)) <= 1)%R.
Proof.
  destruct (radial_gradient_range 1 0) as (_ & Hx & Hy & _).
  - lra.
  - lra.
  - split; [exact Hx | exact Hy].
Defined.

(** X20: the ripple face moves a vertex only along z, by
    [0.2 * sin (10 d - uTime)] with [d] the distance of its texture
    coordinate to (0.5, 0.5), at most 0.2 in magnitude and whatever the
    normal; the offset is the same at the texture coordinate reflected
    through the centre, it is [- 0.2 * sin uTime] at the centre, and the
    displaced position repeats in [uTime] with period [2 * PI]. *)
Theorem ripple_vertex (t : R) (m : GLSL.Matrices) (p n n' : GLSL.vec3) (u v : R) :
  let a := GLSL.mkAttributes p n (GLSL.mkVec2 u v) in
  let q := PyramidShader.newPosition4 t a in
  GLSL.x3 q = GLSL.x3 p /\
  GLSL.y3 q = GLSL.y3 p /\
  (GLSL.z3 q - GLSL.z3 p =
     0.2 * sin (10 * PyramidShader.dist (GLSL.mkVec2 u v) - t))%R /\
  (Rabs (GLSL.z3 q - GLSL.z3 p) <= 0.2)%R /\
  PyramidShader.newPosition4 t (GLSL.mkAttributes p n' (GLSL.mkVec2 u v)) = q /\
  PyramidShader.newPosition4 t (GLSL.mkAttributes p n (GLSL.mkVec2 (1 - u) (1 - v))) = q /\
  (GLSL.z3 (PyramidShader.newPosition4 t (GLSL.mkAttributes p n (GLSL.mkVec2 0.5 0.5)))
     - GLSL.z3 p = - 0.2 * sin t)%R /\
  PyramidShader.newPosition4 (t + 2 * PI) a = q /\
  GLSL.gl_Position (PyramidShader.vertexShader4 t m a) = GLSL.project m q.
Proof.
  intros a q. unfold q, a, PyramidShader.newPosition4; simpl.
  set (d := PyramidShader.dist (GLSL.mkVec2 u v)).
  split; [reflexivity|]. split; [reflexivity|].
  split.
  { replace (10 * d - t)%R with (d * 10 - t)%R by ring. ring. }
  split.
  { pose proof (SIN_bound (d * 10 - t)). apply Rabs_le. lra. }
  split; [reflexivity|].
  split; [now rewrite dist_reflect|].
  split.
  { assert (E : PyramidShader.dist (GLSL.mkVec2 0.5 0.5) = 0%R).
    { unfold PyramidShader.dist, GLSL.length2, GLSL.sub2; simpl.
      replace ((0.5 - 0.5) * (0.5 - 0.5) + (0.5 - 0.5) * (0.5 - 0.5))%R with 0%R by lra.
      apply sqrt_0. }
    rewrite E.
    replace (0 * 10 - t)%R with (- t)%R by ring.
    rewrite sin_neg. lra. }
  split; [|reflexivity].
  f_equal. f_equal. f_equal.
  rewrite <- (sin_period_Z (d * 10 - (t + 2 * PI)) 1). f_equal. ring.
Qed.

(** X21: on the unit square of texture coordinates the wave face writes
    colours within [0, 1]; the ripple face does not: its red channel
    [0.5 + u] lies in [0.5, 1.5] and exceeds 1 exactly when [u > 0.5], its
    green channel [0.5 - v] lies in [-0.5, 0.5] and is negative exactly when
    [v > 0.5]. *)
Theorem gradient_faces_range (u v : R) :
  (0 <= u <= 1)%R -> (0 <= v <= 1)%R ->
  let c1 := PyramidShader.fragmentShader1 (GLSL.mkVec2 u v) in
  let c4 := PyramidShader.fragmentShader4 (GLSL.mkVec2 u v) in
  (0 <= GLSL.x4 c1 <= 1 /\ 0 <= GLSL.y4 c1 <= 1 /\ 0 <= GLSL.z4 c1 <= 1 /\
   GLSL.w4 c1 = 1)%R /\
  (0.5 <= GLSL.x4 c4 <= 1.5 /\ -0.5 <= GLSL.y4 c4 <= 0.5 /\ GLSL.z4 c4 = 0.5 /\
   GLSL.w4 c4 = 1)%R /\
  (1 < GLSL.x4 c4 <-> 0.5 < u)%R /\
  (GLSL.y4 c4 < 0 <-> 0.5 < v)%R.
Proof.
  intros Hu Hv c1 c4.
  unfold c1, c4, PyramidShader.fragmentShader1, PyramidShader.fragmentShader4; simpl.
  repeat split; lra.
Qed.

Lemma gradient_faces_range_witness :
  (1 < GLSL.x4 (PyramidShader.fragmentShader4 (GLSL.mkVec2 0.75 0.75)) <-> 0.5 < 0.75)%R /\
  (GLSL.y4 (PyramidShader.fragmentShader4 (GLSL.mkVec2 0.75 0.75)) < 0 <-> 0.5 < 0.75)%R.
Proof.
  destruct (gradient_faces_range 0.75 0.75) as (_ & _ & Hx & Hy).
  - lra.
  - lra.
  - split; [exact Hx | exact Hy].
Defined.

(** X22: the clip-space position every vertex shader writes,
    [projectionMatrix * modelViewMatrix * vec4(p, 1.0)], is the projection
    matrix applied to the model-view matrix applied to the point; the
    shaders of the checkerboard and radial-gradient faces write it for the
    undisplaced position, as the wave and ripple faces and the sun do when
    their displacement is zero. *)
Theorem projection_grouping (m : GLSL.Matrices) (a : GLSL.Attributes) :
  GLSL.project m (GLSL.position a) =
    GLSL.mat_vec (GLSL.projectionMatrix m)
      (GLSL.mat_vec (GLSL.modelViewMatrix m) (GLSL.vec4_of (GLSL.position a) 1)) /\
  PyramidShader.vertexShader2 m a = PyramidShader.vertexShader3 m a /\
  GLSL.gl_Position (PyramidShader.vertexShader2 m a) = GLSL.project m (GLSL.position a) /\
  (forall u, SunShader.uWaveHeight u = 0%R ->
     SunShader.vertexShader u m a = PyramidShader.vertexShader2 m a).
Proof.
  split.
  { unfold GLSL.project, GLSL.mat_vec, GLSL.mat_mul, GLSL.mat_row, GLSL.col, GLSL.dot4;
      simpl. f_equal; ring. }
  split; [reflexivity|]. split; [reflexivity|].
  intros u Hu.
  unfold SunShader.vertexShader, PyramidShader.vertexShader2. f_equal. f_equal.
  unfold SunShader.newPosition, SunShader.displacement. rewrite Hu.
  unfold GLSL.add3, GLSL.scale3.
  destruct (GLSL.position a) as [px py pz]; simpl. f_equal; ring.
Qed.
